(** * ProgressBar: a shallow embedding of [main.go] and its specification

    The Go program keeps one [Config] per bar and redraws a single terminal
    line on every [Update]/[Increment].  This development embeds

    - the machine integers ([int64], [int]) as [Z] with explicit wrap-around,
    - [float64] as the rational a finite double denotes, every operation
      rounding its exact result to the nearest double (ties to even),
    - the [fmt.Sprintf] verbs the program uses, on byte strings,
    - [formatTime], [formatBytes], [SetUnit], [Update], [Increment] and
      [ShowProgressBar] in a state-and-panic monad over the clock and
      standard output,

    and then states and proves the properties of the specification. *)

From Stdlib Require Import ZArith QArith Qround Qabs Qpower Qreduction Morphisms.
From Stdlib Require Import Lia Lqa Bool List Sorted String Ascii.
From Stdlib Require Import Floats.
From Equations Require Import Equations.

Set Implicit Arguments.
Local Open Scope Z_scope.

(** * Part I: the model *)

(** ** Machine integers *)

Module Int64.

Definition min_int : Z := - 2 ^ 63.
Definition max_int : Z := 2 ^ 63 - 1.

(** Membership in the range of [int64] (and of [int] on 64-bit targets). *)
Definition in_range (z : Z) : Prop := min_int <= z <= max_int.

Definition in_rangeb (z : Z) : bool := (min_int <=? z) && (z <=? max_int).

(** Two's complement wrap-around of an arithmetic result. *)
Definition wrap (z : Z) : Z := (z + 2 ^ 63) mod 2 ^ 64 - 2 ^ 63.

End Int64.

(** ** Binary64 floating point

    Every [float64] the program computes is finite and either zero or of
    magnitude between [2^-70] and [2^140], far inside the normal range, so a
    value is modelled by the rational number it denotes.  [round64] is IEEE 754
    round-to-nearest-even to a 53 bit significand, with the gradual underflow
    spacing [2^-1074] below the normal range; overflow to infinity is out of
    the model. *)

Module F64.

Local Open Scope Q_scope.

Definition float64 : Type := Q.

(** [ilog2 x] is the binary exponent of a positive rational: the largest
    [e] with [2^e <= x]. *)
Definition ilog2 (x : Q) : Z :=
  let e0 := (Z.log2 (Qnum x) - Z.log2 (Z.pos (Qden x)))%Z in
  if Qle_bool (2 ^ e0) x then e0 else (e0 - 1)%Z.

(** Nearest integer, ties to even. *)
Definition rne (q : Q) : Z :=
  let f := Qfloor q in
  match Qcompare (q - inject_Z f) (1 # 2) with
  | Lt => f
  | Eq => if Z.even f then f else (f + 1)%Z
  | Gt => (f + 1)%Z
  end.

(** Exponent of the unit in the last place of the double nearest to [x]. *)
Definition fexp (x : Q) : Z := Z.max (ilog2 (Qabs x) - 52) (-1074).

Definition round64 (x : Q) : float64 :=
  if Qeq_bool x 0 then 0
  else let e := fexp x in Qred (inject_Z (rne (x / 2 ^ e)) * 2 ^ e).

(** [float64(z)] for an integer [z]. *)
Definition of_int (z : Z) : float64 := round64 (inject_Z z).

Definition sub (x y : float64) : float64 := round64 (x - y).
Definition mul (x y : float64) : float64 := round64 (x * y).
Definition div (x y : float64) : float64 := round64 (x / y).

(** Truncation toward zero. *)
Definition trunc (x : Q) : Z := Z.quot (Qnum x) (Z.pos (Qden x)).

(** [int64(x)]: truncation toward zero.  Go leaves the result unspecified
    when the truncated value does not fit; amd64 yields the minimum
    integer, which is what is modelled. *)
Definition to_int64 (x : float64) : Z :=
  let z := trunc x in
  if Int64.in_rangeb z then z else Int64.min_int.

(** The unit roundoff of binary64. *)
Definition eps : Q := 1 # 9007199254740992.

End F64.

(** ** Byte strings and the [fmt] verbs the program uses

    A Go string is a sequence of bytes and [len] counts bytes; [string] with
    its 8-bit [ascii] characters is exactly that. *)

Module Fmt.

Local Open Scope string_scope.
Local Open Scope Z_scope.

(** [len(s)] *)
Definition len (s : string) : Z := Z.of_nat (String.length s).

(** [n] copies of one character. *)
Fixpoint replicate (n : nat) (ch : ascii) : string :=
  match n with
  | O => EmptyString
  | S n' => String ch (replicate n' ch)
  end.

(** Right-justification in a field of [w] bytes, filling with [ch];
    a longer string is left alone. *)
Definition pad_left (ch : ascii) (w : nat) (s : string) : string :=
  replicate (w - String.length s)%nat ch ++ s.

Definition digit (d : Z) : ascii := ascii_of_nat (48 + Z.to_nat d)%nat.

(** The decimal digits of a natural number, most significant first. *)
Equations? digits (n : Z) : string by wf (Z.to_nat (Z.log2 n)) lt :=
  digits n with Z_lt_dec n 10 := {
    | left _ := String (digit n) EmptyString;
    | right _ := digits (n / 10) ++ String (digit (n mod 10)) EmptyString }.
Proof.
  assert (H0 : 0 < n / 10) by (apply Z.div_str_pos; lia).
  assert (H1 : n / 10 <= n / 2) by (apply Z.div_le_compat_l; lia).
  destruct (Z.log2_spec n ltac:(lia)) as [_ Hu].
  rewrite Z.pow_succ_r in Hu by apply Z.log2_nonneg.
  assert (H2 : n / 2 < 2 ^ Z.log2 n) by (apply Z.div_lt_upper_bound; lia).
  assert (Z.log2 (n / 10) < Z.log2 n) by (apply Z.log2_lt_pow2; lia).
  pose proof (Z.log2_nonneg (n / 10)). lia.
Qed.

(** [%d] *)

Definition fmt_d (z : Z) : string :=
  if z <? 0 then "-" ++ digits (- z) else digits z.

(** [%<w>d]: right-justified with spaces. *)
Definition fmt_wd (w : nat) (z : Z) : string := pad_left " " w (fmt_d z).

(** [%0<w>d]: the zeros go between the sign and the digits. *)
Definition fmt_0wd (w : nat) (z : Z) : string :=
  if z <? 0 then "-" ++ pad_left "0" (w - 1)%nat (digits (- z))
  else pad_left "0" w (digits z).

(** [%<w>.<p>f]: the exact value is rounded to [p] decimals, ties to even
    (the conversion of [strconv] is exact), and right-justified. *)
Definition fmt_f (w p : nat) (x : Q) : string :=
  let scale := 10 ^ Z.of_nat p in
  let n := F64.rne (Qabs x * inject_Z scale)%Q in
  let frac :=
    match p with
    | O => EmptyString
    | S _ => "." ++ pad_left "0" p (digits (n mod scale))
    end in
  pad_left " " w ((if Qle_bool 0%Q x then "" else "-") ++ digits (n / scale) ++ frac).

(** [s[i]]: [None] stands for the run-time panic on an index out of range. *)
Definition index (s : string) (i : Z) : option ascii :=
  if (0 <=? i) && (i <? len s) then String.get (Z.to_nat i) s else None.

End Fmt.

(** ** Panics, the clock and standard output *)

(** A Go call either returns or panics. *)
Inductive result (A : Type) : Type :=
| Ok (a : A)
| Panic (msg : string).

Arguments Panic {A} msg.

(** What the program sees of its environment. *)
Record World : Type := mkWorld {
  clock : nat -> Z;        (** successive readings of [time.Now], in Unix milliseconds *)
  ticks : nat;             (** how many readings were taken so far *)
  termWidth : option Z;    (** [term.GetSize]: the columns, or [None] when it fails *)
  stdout : string          (** everything written to standard output *)
}.

(** Computations that read the clock, write to standard output and may panic. *)
Definition M (A : Type) : Type := World -> result (A * World).

Definition ret {A} (a : A) : M A := fun w => Ok (a, w).

Definition bind {A B} (m : M A) (k : A -> M B) : M B :=
  fun w => match m w with
           | Ok (a, w') => k a w'
           | Panic msg => Panic msg
           end.

Definition lift {A} (r : result A) : M A :=
  fun w => match r with
           | Ok a => Ok (a, w)
           | Panic msg => Panic msg
           end.

Declare Scope go_scope.
Delimit Scope go_scope with go.
Notation "x <- m ;; k" := (bind m (fun x => k))
  (at level 61, m at next level, right associativity) : go_scope.
Notation "' pat <- m ;; k" := (bind m (fun x => match x with pat => k end))
  (at level 61, pat pattern, m at next level, right associativity) : go_scope.
Notation "m ;; k" := (bind m (fun _ => k))
  (at level 61, right associativity) : go_scope.

(** [time.Now().UnixNano() / int64(time.Millisecond)]: an [int64]. *)
Definition time_Now_ms : M Z :=
  fun w => Ok (Int64.wrap (clock w (ticks w)),
               mkWorld (clock w) (S (ticks w)) (termWidth w) (stdout w)).

(** [fmt.Print(s)] *)
Definition Print (s : string) : M Datatypes.unit :=
  fun w => Ok (tt, mkWorld (clock w) (ticks w) (termWidth w) (stdout w ++ s)).

(** The line feed written by [fmt.Println()]. *)
Definition LF : ascii := ascii_of_nat 10.
(** The carriage return that opens every rendered line. *)
Definition CR : ascii := ascii_of_nat 13.

Definition Println : M Datatypes.unit := Print (String LF EmptyString).

(** [getTerminalWidth]: the columns of the terminal, 100 when the query fails. *)
Definition getTerminalWidth : M Z :=
  fun w => Ok (match termWidth w with Some n => n | None => 100 end, w).

(** ** The program *)

Local Open Scope string_scope.
Local Open Scope Z_scope.
Local Open Scope go_scope.

Import Fmt.

(** [type Unit int] with its two constants. *)
Inductive Unit : Type :=
| UnitRaw      (** 0: the bare number *)
| UnitBytes.   (** 1: byte magnitudes *)

Record Config : Type := mkConfig {
  current : Z;
  total : Z;
  width : Z;
  showProgress : bool;
  showPercent : bool;
  showSpeed : bool;
  showUsedTime : bool;
  showLastTime : bool;
  startTime : Z;
  last : Z;
  lastTime : Z;
  unit : Unit;
  totalStr : string
}.

(** Field assignments [c.f = v]. *)
Definition set_current (c : Config) (v : Z) : Config :=
  mkConfig v (total c) (width c) (showProgress c) (showPercent c) (showSpeed c)
    (showUsedTime c) (showLastTime c) (startTime c) (last c) (lastTime c) (unit c) (totalStr c).

Definition set_width (c : Config) (v : Z) : Config :=
  mkConfig (current c) (total c) v (showProgress c) (showPercent c) (showSpeed c)
    (showUsedTime c) (showLastTime c) (startTime c) (last c) (lastTime c) (unit c) (totalStr c).

Definition set_sample (c : Config) (v t : Z) : Config :=
  mkConfig (current c) (total c) (width c) (showProgress c) (showPercent c) (showSpeed c)
    (showUsedTime c) (showLastTime c) (startTime c) v t (unit c) (totalStr c).

Definition set_unit (c : Config) (u : Unit) (s : string) : Config :=
  mkConfig (current c) (total c) (width c) (showProgress c) (showPercent c) (showSpeed c)
    (showUsedTime c) (showLastTime c) (startTime c) (last c) (lastTime c) u s.

(** [formatTime]: milliseconds as hours, minutes and seconds.  Go's [/] and
    [%] truncate toward zero. *)
Definition formatTime (ms : Z) : string :=
  let seconds := Z.quot ms 1000 in
  let hours := Z.quot seconds 3600 in
  let seconds := Z.rem seconds 3600 in
  let minutes := Z.quot seconds 60 in
  let seconds := Z.rem seconds 60 in
  fmt_0wd 2 hours ++ ":" ++ fmt_0wd 2 minutes ++ ":" ++ fmt_0wd 2 seconds.

(** The loop of [formatBytes]:
    [for n := bytes / unit; n >= unit; n /= unit { div *= unit; exp++ }],
    returning the final [div] and [exp]. *)
Equations? formatBytes_loop (n div exp : Z) : Z * Z by wf (Z.to_nat (Z.log2 n)) lt :=
  formatBytes_loop n div exp with Z_lt_dec n 1024 := {
    | left _ := (div, exp);
    | right _ := formatBytes_loop (Z.quot n 1024) (Int64.wrap (div * 1024)) (Int64.wrap (exp + 1)) }.
Proof.
  rewrite Z.quot_div_nonneg by lia.
  assert (H0 : 0 < n / 1024) by (apply Z.div_str_pos; lia).
  assert (H1 : n / 1024 <= n / 2) by (apply Z.div_le_compat_l; lia).
  destruct (Z.log2_spec n ltac:(lia)) as [_ Hu].
  rewrite Z.pow_succ_r in Hu by apply Z.log2_nonneg.
  assert (H2 : n / 2 < 2 ^ Z.log2 n) by (apply Z.div_lt_upper_bound; lia).
  assert (Z.log2 (n / 1024) < Z.log2 n) by (apply Z.log2_lt_pow2; lia).
  pose proof (Z.log2_nonneg (n / 1024)). lia.
Qed.

(** [formatBytes]; the panic is that of the index into ["KMGTPE"]. *)
Definition formatBytes (bytes : Z) : result string :=
  if bytes <? 1024 then Ok (fmt_wd 3 bytes ++ " B")
  else
    let '(div, exp) := formatBytes_loop (Z.quot bytes 1024) 1024 0 in
    match index "KMGTPE" exp with
    | Some ch =>
        Ok (fmt_f 6 1 (F64.div (F64.of_int bytes) (F64.of_int div)) ++ " " ++ String ch "B")
    | None => Panic "index out of range"
    end.

(** [ProgressBar]: the constructor.  The goroutine it starts only ever
    performs [c.width = getTerminalWidth()]; see [Resize]. *)
Definition ProgressBar (total : Z) : M Config :=
  now <- time_Now_ms ;;
  w <- getTerminalWidth ;;
  ret (mkConfig 0 total w true false false false false now 0 0 UnitRaw (fmt_d total)).

(** One iteration of the goroutine's loop, on a SIGWINCH. *)
Definition Resize (c : Config) : M Config :=
  w <- getTerminalWidth ;;
  ret (set_width c w).

Definition ShowProgress (c : Config) (flag : bool) : Config :=
  mkConfig (current c) (total c) (width c) flag (showPercent c) (showSpeed c)
    (showUsedTime c) (showLastTime c) (startTime c) (last c) (lastTime c) (unit c) (totalStr c).

Definition ShowPercent (c : Config) (flag : bool) : Config :=
  mkConfig (current c) (total c) (width c) (showProgress c) flag (showSpeed c)
    (showUsedTime c) (showLastTime c) (startTime c) (last c) (lastTime c) (unit c) (totalStr c).

Definition ShowSpeed (c : Config) (flag : bool) : Config :=
  mkConfig (current c) (total c) (width c) (showProgress c) (showPercent c) flag
    (showUsedTime c) (showLastTime c) (startTime c) (last c) (lastTime c) (unit c) (totalStr c).

Definition ShowUsedTime (c : Config) (flag : bool) : Config :=
  mkConfig (current c) (total c) (width c) (showProgress c) (showPercent c) (showSpeed c)
    flag (showLastTime c) (startTime c) (last c) (lastTime c) (unit c) (totalStr c).

Definition ShowLastTime (c : Config) (flag : bool) : Config :=
  mkConfig (current c) (total c) (width c) (showProgress c) (showPercent c) (showSpeed c)
    (showUsedTime c) flag (startTime c) (last c) (lastTime c) (unit c) (totalStr c).

Definition SetUnit (c : Config) (u : Unit) : result Config :=
  match u with
  | UnitBytes =>
      match formatBytes (total c) with
      | Ok s => Ok (set_unit c UnitBytes s)
      | Panic msg => Panic msg
      end
  | UnitRaw => Ok (set_unit c UnitRaw (fmt_d (total c)))
  end.

(** The percentage of lines 118-121 (and again 130-132). *)
Definition percent_of (c : Config) : F64.float64 :=
  if 0 <? total c
  then F64.mul (F64.div (F64.of_int (current c)) (F64.of_int (total c))) 100%Q
  else 0%Q.

(** [x > 0] on [float64]. *)
Definition fpos (x : F64.float64) : bool := negb (Qle_bool x 0%Q).

(** The estimate of the remaining milliseconds, lines 126-129. *)
Definition remaining_of (percent : F64.float64) (usedTime : Z) : Z :=
  if fpos percent
  then F64.to_int64
         (F64.sub (F64.mul (F64.of_int usedTime) (F64.div 100%Q percent))
                  (F64.of_int usedTime))
  else 0.

(** The current value as shown in the fraction, lines 135-142. *)
Definition currentStr_of (c : Config) : result string :=
  match unit c with
  | UnitBytes => formatBytes (current c)
  | UnitRaw =>
      let currentStrLength := String.length (totalStr c) in
      Ok (fmt_wd currentStrLength (current c))
  end.

(** The speed annotation, lines 163-174; empty when there is no earlier
    sample or no time has passed since. *)
Definition speed_segment (c : Config) (now : Z) : result string :=
  if 0 <? lastTime c then
    let duration := Int64.wrap (now - lastTime c) in
    if 0 <? duration then
      let speed :=
        F64.div (F64.of_int (Int64.wrap (current c - last c)))
                (F64.div (F64.of_int duration) 1000%Q) in
      match unit c with
      | UnitBytes =>
          let speedBytes := F64.to_int64 (F64.mul speed 1024%Q) in
          match formatBytes speedBytes with
          | Ok s => Ok (" (" ++ s ++ "/s)")
          | Panic msg => Panic msg
          end
      | UnitRaw => Ok (" (" ++ fmt_f 7 2 speed ++ " items/s)")
      end
    else Ok ""
  else Ok "".

(** The time annotations, lines 180-189. *)
Definition time_segment (c : Config) (percent : F64.float64) (usedTime lastTime : Z) : string :=
  if showUsedTime c && showLastTime c && fpos percent
  then " [" ++ formatTime usedTime ++ "/" ++ formatTime lastTime ++ "]"
  else
    (if showUsedTime c then " [已用:" ++ formatTime usedTime ++ "]" else "") ++
    (if showLastTime c && fpos percent then " [剩余:" ++ formatTime lastTime ++ "]" else "").

(** The body of the bar, lines 195-204: [n] bounds the iterations that are
    left, [i] is the loop counter. *)
Fixpoint bar_loop (n : nat) (i progressLength progressWidth : Z) (bar : string) : string :=
  match n with
  | O => bar
  | S n' =>
      if i <? progressWidth then
        let bar :=
          if i <? progressLength then bar ++ "="
          else if (i =? progressLength) && (progressLength <? progressWidth) then bar ++ ">"
          else bar ++ " " in
        bar_loop n' (i + 1) progressLength progressWidth bar
      else bar
  end.

(** [progressWidth] and [progressLength], lines 191-192. *)
Definition progressWidth_of (c : Config) (output : string) : Z :=
  Int64.wrap (Int64.wrap (width c - len output) - 2).

Definition progressLength_of (progressWidth : Z) (percent : F64.float64) : Z :=
  F64.to_int64 (F64.div (F64.mul (F64.of_int progressWidth) percent) 100%Q).

Definition ShowProgressBar (c : Config) : M Config :=
  let percent := percent_of c in
  currentTime <- time_Now_ms ;;
  let usedTime := Int64.wrap (currentTime - startTime c) in
  let lastTime := remaining_of percent usedTime in
  let percent := if 0 <? total c then percent_of c else percent in
  currentStr <- lift (currentStr_of c) ;;
  let output := "" in
  let output :=
    if showPercent c then output ++ " " ++ fmt_f 0 1 percent ++ "%" else output in
  let output :=
    if showProgress c then
      if showPercent c
      then output ++ " (" ++ currentStr ++ "/" ++ totalStr c ++ ")"
      else output ++ " " ++ currentStr ++ "/" ++ totalStr c
    else output in
  ' (output, c) <-
      (if showSpeed c then
         now <- time_Now_ms ;;
         seg <- lift (speed_segment c now) ;;
         ret (output ++ seg, set_sample c (current c) now)
       else ret (output, c)) ;;
  let output := output ++ time_segment c percent usedTime lastTime in
  let progressWidth := progressWidth_of c output in
  let progressLength := progressLength_of progressWidth percent in
  let bar := bar_loop (Z.to_nat progressWidth) 0 progressLength progressWidth "" in
  let output := String CR "[" ++ bar ++ "]" ++ output in
  Print output ;;
  (if total c <=? current c then Println else ret tt) ;;
  ret c.

Definition Update (c : Config) (current' : Z) : M Config :=
  let c := if (current c <? current') && (current' <=? total c)
           then set_current c current' else c in
  ShowProgressBar c.

Definition Increment (c : Config) : M Config :=
  let c := if current c <? total c
           then set_current c (Int64.wrap (current c + 1)) else c in
  ShowProgressBar c.




(** A world for concrete runs: the clock advances by 100 ms per reading from
    [t0], the terminal has [cols] columns. *)
Definition world (t0 cols : Z) : World :=
  mkWorld (fun n => t0 + 100 * Z.of_nat n) 0 (Some cols) "".

Definition run {A} (m : M A) (w : World) : option (A * string) :=
  match m w with
  | Ok (a, w') => Some (a, stdout w')
  | Panic _ => None
  end.

(** Reading a hardware double of the kernel as a rational, to compare the
    model of [float64] with it on examples. *)
Definition SF2Q (s : SpecFloat.spec_float) : option Q :=
  match s with
  | SpecFloat.S754_zero _ => Some 0%Q
  | SpecFloat.S754_finite sg m e =>
      Some (Qred ((if sg then -1 else 1) * inject_Z (Z.pos m) * 2 ^ e)%Q)
  | _ => None
  end.

(** ** What one render writes

    [ShowProgressBar] in closed form: the annotation suffix, the bar, the
    line, and the resulting tracker and world. *)

(** The first and the second reading of the clock from world [w]. *)
Definition now1 (w : World) : Z := Int64.wrap (clock w (ticks w)).
Definition now2 (w : World) : Z := Int64.wrap (clock w (S (ticks w))).

(** Percent and fraction, lines 146-158. *)
Definition head_segment (c : Config) (currentStr : string) : string :=
  (if showPercent c then " " ++ fmt_f 0 1 (percent_of c) ++ "%" else "") ++
  (if showProgress c then
     if showPercent c then " (" ++ currentStr ++ "/" ++ totalStr c ++ ")"
     else " " ++ currentStr ++ "/" ++ totalStr c
   else "").

(** The whole annotation suffix, given the speed annotation [seg]. *)
Definition suffix_of (c : Config) (currentStr seg : string) (usedTime : Z) : string :=
  head_segment c currentStr ++ seg ++
  time_segment c (percent_of c) usedTime (remaining_of (percent_of c) usedTime).

Definition bar_of (c : Config) (output : string) : string :=
  let progressWidth := progressWidth_of c output in
  bar_loop (Z.to_nat progressWidth) 0
    (progressLength_of progressWidth (percent_of c)) progressWidth "".

(** The line handed to [fmt.Print]. *)
Definition line_of (c : Config) (output : string) : string :=
  String CR "[" ++ bar_of c output ++ "]" ++ output.

(** What [fmt.Println] adds on completion. *)
Definition newline_of (c : Config) : string :=
  if total c <=? current c then String LF "" else "".

Definition tick (n : nat) (w : World) (out : string) : World :=
  mkWorld (clock w) (n + ticks w) (termWidth w) (stdout w ++ out).

(** The tracker and the world after one render. *)
Definition after_render (c : Config) (w : World) (line : string) : Config * World :=
  if showSpeed c
  then (set_sample c (current c) (now2 w), tick 2 w line)
  else (c, tick 1 w line).

(** ** Tracker states

    [Inv] collects what holds of every tracker the program can build: the
    ranges of the machine integers, the counter between zero and a positive
    total, the sample behind the counter, a column count that fits 31 bits
    ([term.GetSize] reports an unsigned 16 bit field) and the cached total
    in step with the unit.  A tracker built with a negative total satisfies
    it too, with its counter stuck at zero. *)

Definition totalStr_ok (c : Config) : Prop :=
  match unit c with
  | UnitRaw => totalStr c = fmt_d (total c)
  | UnitBytes => formatBytes (total c) = Ok (totalStr c)
  end.

Record Inv (c : Config) : Prop := mkInv {
  inv_total : Int64.in_range (total c);
  inv_current : 0 <= current c <= Int64.max_int;
  inv_bound : 0 <= total c -> current c <= total c;
  inv_stuck : total c < 0 -> current c = 0;
  inv_last : 0 <= last c <= current c;
  inv_lastTime : Int64.in_range (lastTime c);
  inv_startTime : Int64.in_range (startTime c);
  inv_width : 0 <= width c < 2 ^ 31;
  inv_totalStr : totalStr_ok c
}.

(** The terminal reports a column count that fits 31 bits. *)
Definition World_ok (w : World) : Prop :=
  match termWidth w with
  | Some n => 0 <= n < 2 ^ 31
  | None => True
  end.

(** The trackers the program can build: made by [ProgressBar], then driven
    through the methods, with the resize listener running in between. *)
Inductive reachable : Config -> Prop :=
| reach_ProgressBar total w c w' :
    Int64.in_range total -> World_ok w ->
    ProgressBar total w = Ok (c, w') -> reachable c
| reach_ShowProgress c flag : reachable c -> reachable (ShowProgress c flag)
| reach_ShowPercent c flag : reachable c -> reachable (ShowPercent c flag)
| reach_ShowSpeed c flag : reachable c -> reachable (ShowSpeed c flag)
| reach_ShowUsedTime c flag : reachable c -> reachable (ShowUsedTime c flag)
| reach_ShowLastTime c flag : reachable c -> reachable (ShowLastTime c flag)
| reach_SetUnit c u c' : reachable c -> SetUnit c u = Ok c' -> reachable c'
| reach_Update c v w c' w' :
    reachable c -> Int64.in_range v -> Update c v w = Ok (c', w') -> reachable c'
| reach_Increment c w c' w' :
    reachable c -> Increment c w = Ok (c', w') -> reachable c'
| reach_ShowProgressBar c w c' w' :
    reachable c -> ShowProgressBar c w = Ok (c', w') -> reachable c'
| reach_Resize c w c' w' :
    reachable c -> World_ok w -> Resize c w = Ok (c', w') -> reachable c'.

(** Projections of the field assignments, without unfolding anything else. *)
Ltac fields :=
  cbn [current total width showProgress showPercent showSpeed showUsedTime
       showLastTime startTime last lastTime unit totalStr
       set_current set_width set_sample set_unit
       ShowProgress ShowPercent ShowSpeed ShowUsedTime ShowLastTime] in *.

Ltac ranges := unfold Int64.in_range, Int64.min_int, Int64.max_int in *.

(** Linear arithmetic after evaluating the closed [Z.of_nat n] of the goal. *)
Ltac nlia :=
  repeat match goal with
         | |- context [Z.of_nat ?n] =>
             let v := eval vm_compute in (Z.of_nat n) in
             progress change (Z.of_nat n) with v
         end;
  lia.

(** Successive [Update] calls, with the tracker after each call. *)
Fixpoint Updates (c : Config) (vs : list Z) : M (list Config) :=
  match vs with
  | nil => ret nil
  | v :: vs' =>
      c' <- Update c v ;;
      cs <- Updates c' vs' ;;
      ret (c' :: cs)
  end.

(** Successive [Increment] calls. *)
Fixpoint Increments (c : Config) (n : nat) : M Config :=
  match n with
  | O => ret c
  | S n' => c' <- Increment c ;; Increments c' n'
  end.

(** No byte of [s] is a line feed. *)
Fixpoint lf_free (s : string) : Prop :=
  match s with
  | EmptyString => True
  | String ch s' => ch <> LF /\ lf_free s'
  end.

(** Trackers and a world for concrete instances: a bar in mid-run with
    every annotation on, and the same in byte units. *)
Definition sample : Config :=
  mkConfig 58 200 60 true true true true true
           1700000000000 25 1700000000100 UnitRaw "200".

Definition sample_bytes : Config :=
  mkConfig 4096 10000 72 true true true true true
           1700000000000 1024 1700000000100 UnitBytes "   9.8 KB".

Definition sample_world : World := world 1700000000200 60.

(** A tracker at 7 of 100. *)
Definition seven_of_100 : Config :=
  mkConfig 7 100 80 true true false false false 1700000000000 0 0 UnitRaw "100".

(** A byte-unit tracker at 512 of 2048. *)
Definition half_k_of_2k : Config :=
  mkConfig 512 2048 80 true false false false false 1700000000000 0 0
           UnitBytes "   2.0 KB".


(** The tracker [ProgressBar 200] builds in [sample_world]. *)
Definition fresh : Config :=
  mkConfig 0 200 60 true false false false false 1700000000200 0 0 UnitRaw "200".


(** A tracker that has reached its total. *)
Definition finished : Config :=
  mkConfig 200 200 60 true true true true true
           1700000000000 150 1700000000100 UnitRaw "200".

(** * Part II: properties of the model *)

(** ** Machine integers *)

Section Int64_facts.

Import Int64.

Lemma in_rangeb_spec z : in_rangeb z = true <-> in_range z.
Proof. unfold in_rangeb, in_range. rewrite andb_true_iff. lia. Qed.

Lemma wrap_in_range z : in_range (wrap z).
Proof.
  unfold wrap, in_range, min_int, max_int.
  pose proof (Z.mod_pos_bound (z + 2 ^ 63) (2 ^ 64) ltac:(lia)). lia.
Qed.

Lemma wrap_id z : in_range z -> wrap z = z.
Proof.
  unfold wrap, in_range, min_int, max_int. intros H.
  rewrite Z.mod_small by lia. lia.
Qed.

End Int64_facts.

(** ** Rounding to binary64 *)

Section F64_facts.

Import F64.
Local Open Scope Q_scope.

(** *** Powers of two *)

Lemma pow2_pos e : 0 < 2 ^ e.
Proof. apply Qpower_0_lt. reflexivity. Qed.

Lemma pow2_add a b : 2 ^ (a + b) == 2 ^ a * 2 ^ b.
Proof. apply Qpower_plus. discriminate. Qed.

Lemma pow2_succ e : 2 ^ (e + 1) == 2 * 2 ^ e.
Proof. rewrite pow2_add. change (2 ^ 1) with 2. ring. Qed.

Lemma pow2_le a b : (a <= b)%Z -> 2 ^ a <= 2 ^ b.
Proof. intros H. apply Qpower_le_compat_l; [exact H | discriminate]. Qed.

Lemma pow2_lt a b : (a < b)%Z -> 2 ^ a < 2 ^ b.
Proof. intros H. apply Qpower_lt_compat_l; [exact H | reflexivity]. Qed.

Lemma pow2_lt_inv a b : 2 ^ a < 2 ^ b -> (a < b)%Z.
Proof. intros H. apply (Qpower_lt_compat_l_inv 2); [exact H | reflexivity]. Qed.

Lemma pow2_inject n : (0 <= n)%Z -> inject_Z (2 ^ n) == 2 ^ n.
Proof. intros H. apply Zpower_Qpower. exact H. Qed.

Lemma pow2_div_cancel x e : x / 2 ^ e * 2 ^ e == x.
Proof. pose proof (pow2_pos e). field. lra. Qed.

(** *** The binary exponent *)

Lemma ilog2_spec x : 0 < x -> 2 ^ ilog2 x <= x /\ x < 2 ^ (ilog2 x + 1).
Proof.
  intros Hx. unfold ilog2.
  destruct x as [n d]. cbn [Qnum Qden].
  assert (Hn : (0 < n)%Z) by (unfold Qlt in Hx; cbn in Hx; lia).
  set (ln := Z.log2 n). set (ld := Z.log2 (Z.pos d)).
  destruct (Z.log2_spec n Hn) as [Hn1 Hn2].
  destruct (Z.log2_spec (Z.pos d) ltac:(lia)) as [Hd1 Hd2].
  fold ln in Hn1, Hn2. fold ld in Hd1, Hd2.
  assert (Hln : (0 <= ln)%Z) by apply Z.log2_nonneg.
  assert (Hld : (0 <= ld)%Z) by apply Z.log2_nonneg.
  rewrite Zle_Qle in Hn1, Hd1. rewrite Zlt_Qlt in Hn2, Hd2.
  replace (Z.succ ln) with (ln + 1)%Z in Hn2 by lia.
  replace (Z.succ ld) with (ld + 1)%Z in Hd2 by lia.
  rewrite pow2_inject in Hn1, Hn2, Hd1, Hd2 by lia.
  rewrite pow2_succ in Hn2, Hd2.
  assert (HA : 2 ^ ln == 2 ^ (ln - ld) * 2 ^ ld).
  { rewrite <- pow2_add. replace (ln - ld + ld)%Z with ln by lia. reflexivity. }
  assert (HX : (n # d) * inject_Z (Z.pos d) == inject_Z n).
  { rewrite (Qmake_Qdiv n d). field. intros E. discriminate E. }
  pose proof (pow2_pos (ln - ld)) as HP.
  pose proof (pow2_pos ld) as HB.
  pose proof (pow2_succ (ln - ld)) as HS.
  assert (HS' : 2 ^ (ln - ld) == 2 * 2 ^ (ln - ld - 1)).
  { rewrite <- pow2_succ. replace (ln - ld - 1 + 1)%Z with (ln - ld)%Z by lia. reflexivity. }
  pose proof (pow2_pos (ln - ld - 1)) as HP'.
  set (X := n # d) in *. set (D := inject_Z (Z.pos d)) in *.
  set (N := inject_Z n) in *. set (A := 2 ^ ln) in *. set (B := 2 ^ ld) in *.
  set (P := 2 ^ (ln - ld)) in *.
  destruct (Qle_bool P X) eqn:Hb.
  - apply Qle_bool_iff in Hb. split; [exact Hb |].
    rewrite HS. apply Qnot_le_lt. intros Hc.
    assert (2 * P * D <= X * D) by (apply Qmult_le_compat_r; lra).
    assert (P * B <= P * D) by (apply Qmult_le_l; lra).
    lra.
  - assert (Hlt : X < P).
    { apply Qnot_le_lt. intros Hc. apply Qle_bool_iff in Hc. congruence. }
    replace (ln - ld - 1 + 1)%Z with (ln - ld)%Z by lia. fold P.
    split; [| exact Hlt].
    set (P' := 2 ^ (ln - ld - 1)) in *.
    apply Qnot_lt_le. intros Hc.
    assert (X * D <= P' * D) by (apply Qmult_le_compat_r; lra).
    assert (P' * D <= P' * (2 * B)) by (apply Qmult_le_l; lra).
    assert (P' * D < P' * (2 * B)) by (apply Qmult_lt_l; lra).
    assert (P * B == P' * (2 * B)) by (rewrite HS'; ring).
    lra.
Qed.

Lemma ilog2_unique x e : 2 ^ e <= x -> x < 2 ^ (e + 1) -> ilog2 x = e.
Proof.
  intros H1 H2.
  assert (Hx : 0 < x) by (pose proof (pow2_pos e); lra).
  destruct (ilog2_spec Hx) as [H3 H4].
  assert (e < ilog2 x + 1)%Z by (apply pow2_lt_inv; lra).
  assert (ilog2 x < e + 1)%Z by (apply pow2_lt_inv; lra).
  lia.
Qed.

Lemma ilog2_mono x y : 0 < x -> x <= y -> (ilog2 x <= ilog2 y)%Z.
Proof.
  intros Hx Hxy.
  destruct (ilog2_spec Hx) as [H1 _].
  destruct (ilog2_spec (x := y) ltac:(lra)) as [_ H2].
  assert (ilog2 x < ilog2 y + 1)%Z by (apply pow2_lt_inv; lra).
  lia.
Qed.

Lemma ilog2_comp x y : 0 < x -> x == y -> ilog2 x = ilog2 y.
Proof.
  intros Hx E. symmetry. destruct (ilog2_spec Hx).
  apply ilog2_unique; rewrite <- E; assumption.
Qed.

(** *** Rounding to the nearest integer *)

Lemma Qfloor_comp x y : x == y -> Qfloor x = Qfloor y.
Proof.
  intros E. apply Z.le_antisymm; apply Qfloor_resp_le; rewrite E; apply Qle_refl.
Qed.

Lemma rne_comp x y : x == y -> rne x = rne y.
Proof. intros E. unfold rne. rewrite (Qfloor_comp E). now rewrite E. Qed.

Lemma rne_cases q :
  let f := Qfloor q in
  (q - inject_Z f < 1 # 2 /\ rne q = f) \/
  (q - inject_Z f == 1 # 2 /\ (rne q = f \/ rne q = (f + 1)%Z)) \/
  ((1 # 2) < q - inject_Z f /\ rne q = (f + 1)%Z).
Proof.
  intros f. unfold rne. fold f.
  destruct (Qcompare (q - inject_Z f) (1 # 2)) eqn:E.
  - apply Qeq_alt in E. right; left. split; [exact E |].
    destruct (Z.even f); auto.
  - apply Qlt_alt in E. left. auto.
  - apply Qgt_alt in E. right; right. auto.
Qed.

Lemma rne_bounds q :
  inject_Z (rne q) - (1 # 2) <= q /\ q <= inject_Z (rne q) + (1 # 2).
Proof.
  pose proof (Qfloor_le q). pose proof (Qlt_floor q) as Hlt.
  rewrite inject_Z_plus in Hlt.
  destruct (rne_cases q) as [[H1 ->] | [[H1 [-> | ->]] | [H1 ->]]];
    rewrite ?inject_Z_plus; change (inject_Z 1) with 1 in *; lra.
Qed.

Lemma rne_mono x y : x <= y -> (rne x <= rne y)%Z.
Proof.
  intros Hxy. pose proof (Qfloor_resp_le _ _ Hxy) as Hf.
  pose proof (Qfloor_le x). pose proof (Qfloor_le y).
  destruct (rne_cases x) as [[X1 X2] | [[X1 X2] | [X1 X2]]];
    destruct (rne_cases y) as [[Y1 Y2] | [[Y1 Y2] | [Y1 Y2]]];
    try lia.
  - destruct (Z.eq_dec (Qfloor x) (Qfloor y)) as [E | E]; [| lia].
    exfalso. rewrite E in X1. lra.
  - destruct (Z.eq_dec (Qfloor x) (Qfloor y)) as [E | E]; [| lia].
    unfold rne. rewrite E.
    assert (E1 : x - inject_Z (Qfloor y) == y - inject_Z (Qfloor y))
      by (rewrite E in X1; lra).
    rewrite E1. lia.
  - destruct (Z.eq_dec (Qfloor x) (Qfloor y)) as [E | E]; [| lia].
    exfalso. rewrite E in X1. lra.
  - destruct (Z.eq_dec (Qfloor x) (Qfloor y)) as [E | E]; [| lia].
    exfalso. rewrite E in X1. lra.
Qed.

Lemma rne_Z z : rne (inject_Z z) = z.
Proof.
  destruct (rne_cases (inject_Z z)) as [[H1 H2] | [[H1 H2] | [H1 H2]]];
    rewrite Qfloor_Z in *; [exact H2 | exfalso; lra | exfalso; lra].
Qed.

(** *** Properties of [round64] *)

Lemma round64_eq x :
  ~ x == 0 -> round64 x == inject_Z (rne (x / 2 ^ fexp x)) * 2 ^ fexp x.
Proof.
  intros Hx. unfold round64. destruct (Qeq_bool x 0) eqn:E.
  - apply Qeq_bool_eq in E. contradiction.
  - apply Qred_correct.
Qed.

Lemma fexp_pos x : 0 < x -> fexp x = Z.max (ilog2 x - 52) (-1074).
Proof.
  intros Hx. unfold fexp. f_equal. f_equal.
  symmetry. apply ilog2_comp; [exact Hx |].
  symmetry. apply Qabs_pos. lra.
Qed.

Lemma Qabs_nonzero_pos x : ~ x == 0 -> 0 < Qabs x.
Proof.
  intros Hx. apply Qabs_case; intros H.
  - destruct (Qlt_le_dec 0 x); [assumption |]. exfalso. apply Hx. lra.
  - destruct (Qlt_le_dec x 0); [lra |]. exfalso. apply Hx. lra.
Qed.

Lemma round64_comp x y : x == y -> round64 x == round64 y.
Proof.
  intros E. unfold round64.
  destruct (Qeq_bool x 0) eqn:Ex; destruct (Qeq_bool y 0) eqn:Ey.
  - reflexivity.
  - apply Qeq_bool_eq in Ex. apply Qeq_bool_neq in Ey. rewrite <- E in Ey. contradiction.
  - apply Qeq_bool_neq in Ex. apply Qeq_bool_eq in Ey. rewrite E in Ex. contradiction.
  - apply Qeq_bool_neq in Ex.
    assert (Hf : fexp x = fexp y).
    { unfold fexp. f_equal. f_equal. apply ilog2_comp.
      - apply Qabs_nonzero_pos, Ex.
      - now rewrite E. }
    rewrite !Qred_correct, Hf.
    rewrite (rne_comp (x := x / 2 ^ fexp y) (y := y / 2 ^ fexp y)); [reflexivity |].
    now rewrite E.
Qed.

#[global] Instance round64_Proper : Proper (Qeq ==> Qeq) round64.
Proof. intros x y E. apply round64_comp, E. Qed.

Lemma round64_nonneg x : 0 <= x -> 0 <= round64 x.
Proof.
  intros Hx. destruct (Qeq_dec x 0) as [E | E].
  - rewrite (round64_comp E). cbn. lra.
  - rewrite (round64_eq E). pose proof (pow2_pos (fexp x)) as Hp.
    apply Qmult_le_0_compat; [| lra].
    assert (0 <= x / 2 ^ fexp x).
    { apply Qle_shift_div_l; [exact Hp | lra]. }
    pose proof (rne_mono H) as Hr. change (rne 0) with 0%Z in Hr.
    rewrite Zle_Qle in Hr. exact Hr.
Qed.

Lemma round64_mono_pos x y : 0 < x -> x <= y -> round64 x <= round64 y.
Proof.
  intros Hx Hxy.
  assert (Hy : 0 < y) by lra.
  rewrite (round64_eq (x := x)), (round64_eq (x := y)) by lra.
  pose proof (ilog2_mono Hx Hxy) as Hl.
  rewrite (fexp_pos Hx), (fexp_pos Hy).
  set (ex := Z.max (ilog2 x - 52) (-1074)).
  set (ey := Z.max (ilog2 y - 52) (-1074)).
  assert (Hexy : (ex <= ey)%Z) by (subst ex ey; lia).
  pose proof (pow2_pos ex) as Hpx. pose proof (pow2_pos ey) as Hpy.
  destruct (Z.eq_dec ex ey) as [E | E].
  - rewrite <- E. apply Qmult_le_compat_r; [| lra].
    rewrite <- Zle_Qle. apply rne_mono.
    apply Qmult_le_compat_r; [exact Hxy |].
    apply Qlt_le_weak, Qinv_lt_0_compat, Hpx.
  - assert (Hlt : (ex < ey)%Z) by lia.
    (* the significand of [x] is at most 2^53 *)
    assert (Hsx : (rne (x / 2 ^ ex) <= 2 ^ 53)%Z).
    { rewrite <- (rne_Z (2 ^ 53)). apply rne_mono.
      apply Qle_shift_div_r; [exact Hpx |].
      destruct (ilog2_spec Hx) as [_ Hu].
      assert (2 ^ (ilog2 x + 1) <= inject_Z (2 ^ 53) * 2 ^ ex).
      { rewrite (@pow2_inject 53) by lia. rewrite <- pow2_add.
        apply pow2_le. subst ex. lia. }
      lra. }
    (* the significand of [y] is at least 2^52 *)
    assert (Hsy : (2 ^ 52 <= rne (y / 2 ^ ey))%Z).
    { rewrite <- (rne_Z (2 ^ 52)). apply rne_mono.
      apply Qle_shift_div_l; [exact Hpy |].
      destruct (ilog2_spec Hy) as [Hu _].
      assert (Heq : (52 + ey)%Z = ilog2 y) by (subst ex ey; lia).
      rewrite (@pow2_inject 52) by lia. rewrite <- pow2_add, Heq. exact Hu. }
    rewrite Zle_Qle in Hsx, Hsy.
    assert (H1 : inject_Z (rne (x / 2 ^ ex)) * 2 ^ ex <= inject_Z (2 ^ 53) * 2 ^ ex)
      by (apply Qmult_le_compat_r; lra).
    assert (H2 : inject_Z (2 ^ 52) * 2 ^ ey <= inject_Z (rne (y / 2 ^ ey)) * 2 ^ ey)
      by (apply Qmult_le_compat_r; lra).
    assert (H3 : inject_Z (2 ^ 53) * 2 ^ ex <= inject_Z (2 ^ 52) * 2 ^ ey).
    { rewrite (@pow2_inject 53), (@pow2_inject 52) by lia. rewrite <- !pow2_add.
      apply pow2_le. lia. }
    lra.
Qed.

Theorem round64_mono x y : 0 <= x -> x <= y -> round64 x <= round64 y.
Proof.
  intros Hx Hxy. destruct (Qeq_dec x 0) as [E | E].
  - rewrite (round64_comp E). change (round64 0) with 0.
    apply round64_nonneg. lra.
  - apply round64_mono_pos; [| exact Hxy].
    destruct (Qlt_le_dec 0 x); [assumption |]. exfalso. apply E. lra.
Qed.

(** Integers of at most 53 bits convert exactly. *)
Lemma round64_int z : (0 <= z <= 2 ^ 53)%Z -> round64 (inject_Z z) == inject_Z z.
Proof.
  intros Hz.
  destruct (Z.eq_dec z 0) as [-> | Hz0]; [reflexivity |].
  destruct (Z.eq_dec z (2 ^ 53)) as [-> | Hz1]; [vm_compute; reflexivity |].
  assert (Hx : 0 < inject_Z z) by (change 0 with (inject_Z 0); rewrite <- Zlt_Qlt; lia).
  rewrite round64_eq by lra. rewrite (fexp_pos Hx).
  set (e := Z.max (ilog2 (inject_Z z) - 52) (-1074)).
  assert (He : (e <= 0)%Z).
  { destruct (ilog2_spec Hx) as [Hl _].
    assert (inject_Z z < 2 ^ 53).
    { rewrite <- (@pow2_inject 53) by lia. rewrite <- Zlt_Qlt. lia. }
    assert (ilog2 (inject_Z z) < 53)%Z by (apply pow2_lt_inv; lra).
    subst e. lia. }
  assert (Hq : inject_Z z / 2 ^ e == inject_Z (z * 2 ^ (- e))).
  { rewrite inject_Z_mult. rewrite (@pow2_inject (- e)) by lia.
    rewrite Qpower_opp. reflexivity. }
  rewrite (rne_comp Hq), rne_Z, <- Hq. apply pow2_div_cancel.
Qed.

(** In the normal range rounding moves a value by at most one part in 2^53. *)
Lemma round64_rel x :
  2 ^ (-1022) <= x -> x * (1 - eps) <= round64 x /\ round64 x <= x * (1 + eps).
Proof.
  intros Hn. pose proof (pow2_pos (-1022)) as Hp0.
  assert (Hx : 0 < x) by lra.
  rewrite round64_eq by lra. rewrite (fexp_pos Hx).
  destruct (ilog2_spec Hx) as [Hl Hu].
  assert (Hlo : (-1022 < ilog2 x + 1)%Z) by (apply pow2_lt_inv; lra).
  replace (Z.max (ilog2 x - 52) (-1074)) with (ilog2 x - 52)%Z by lia.
  set (e := (ilog2 x - 52)%Z). pose proof (pow2_pos e) as Hp.
  destruct (rne_bounds (x / 2 ^ e)) as [B1 B2].
  set (R := inject_Z (rne (x / 2 ^ e))) in *.
  assert (C1 : (R - (1 # 2)) * 2 ^ e <= x / 2 ^ e * 2 ^ e)
    by (apply Qmult_le_compat_r; lra).
  assert (C2 : x / 2 ^ e * 2 ^ e <= (R + (1 # 2)) * 2 ^ e)
    by (apply Qmult_le_compat_r; lra).
  rewrite pow2_div_cancel in C1, C2.
  assert (C3 : inject_Z (2 ^ 52) * 2 ^ e <= x).
  { rewrite (@pow2_inject 52) by lia. rewrite <- pow2_add.
    replace (52 + e)%Z with (ilog2 x) by (subst e; lia). exact Hl. }
  change (inject_Z (2 ^ 52)) with (4503599627370496 # 1) in C3.
  unfold eps. set (P := 2 ^ e) in *. set (RP := R * P) in *.
  assert (E1 : (R - (1 # 2)) * P == RP - (1 # 2) * P) by (subst RP; ring).
  assert (E2 : (R + (1 # 2)) * P == RP + (1 # 2) * P) by (subst RP; ring).
  rewrite E1 in C1. rewrite E2 in C2. split; lra.
Qed.

(** Powers of two are doubles. *)
Lemma round64_pow2 k : (0 <= k)%Z -> round64 (inject_Z (2 ^ k)) == inject_Z (2 ^ k).
Proof.
  intros Hk. rewrite (round64_comp (pow2_inject Hk)), (pow2_inject Hk).
  pose proof (pow2_pos k) as Hp.
  rewrite round64_eq by lra. rewrite (fexp_pos Hp).
  assert (Hl : ilog2 (2 ^ k) = k).
  { apply ilog2_unique; [lra |]. apply pow2_lt. lia. }
  rewrite Hl. replace (Z.max (k - 52) (-1074)) with (k - 52)%Z by lia.
  assert (Hs : 2 ^ k == inject_Z (2 ^ 52) * 2 ^ (k - 52)).
  { rewrite (@pow2_inject 52) by lia. rewrite <- pow2_add.
    replace (52 + (k - 52))%Z with k by lia. reflexivity. }
  assert (Hq : 2 ^ k / 2 ^ (k - 52) == inject_Z (2 ^ 52)).
  { rewrite Hs. pose proof (pow2_pos (k - 52)). field. lra. }
  rewrite (rne_comp Hq), rne_Z. symmetry. exact Hs.
Qed.

(** Division is monotone in the numerator and antitone in the denominator. *)
Lemma Qdiv_le_compat a b c d : 0 <= a -> a <= c -> 0 < d -> d <= b -> a / b <= c / d.
Proof.
  intros Ha Hac Hd Hdb.
  apply Qle_shift_div_l; [exact Hd |].
  assert (Hb : 0 < b) by lra.
  assert (E : a / b * d == a * (d / b)) by (field; lra).
  rewrite E.
  assert (Hdb' : d / b <= 1) by (apply Qle_shift_div_r; lra).
  assert (0 <= d / b) by (apply Qle_shift_div_l; lra).
  assert (a * (d / b) <= a * 1) by (apply Qmult_le_compat_nonneg; lra).
  lra.
Qed.

End F64_facts.

(** ** Concrete runs *)

Example fmt_d_ex : fmt_d (-1203) = "-1203" /\ fmt_d 0 = "0" /\ fmt_d (2 ^ 63 - 1) = "9223372036854775807".
Proof. repeat split; vm_compute; reflexivity. Qed.

Example fmt_wd_ex : fmt_wd 3 7 = "  7" /\ fmt_wd 3 1023 = "1023" /\ fmt_wd 3 (-5) = " -5".
Proof. repeat split; vm_compute; reflexivity. Qed.

Example fmt_0wd_ex : fmt_0wd 2 7 = "07" /\ fmt_0wd 2 123 = "123" /\ fmt_0wd 2 (-5) = "-5".
Proof. repeat split; vm_compute; reflexivity. Qed.

Example fmt_f_ex :
  fmt_f 0 1 (1 # 4) = "0.2" /\ fmt_f 6 1 (3 # 2) = "   1.5" /\
  fmt_f 7 2 (- (1001 # 8))%Q = "-125.12" /\ fmt_f 0 1 100%Q = "100.0".
Proof. repeat split; vm_compute; reflexivity. Qed.

Example run_percent_fraction :
  run (c <- ProgressBar 200 ;; Update (ShowPercent c true) 58) (world 1700000000000 40)
  = Some (mkConfig 58 200 40 true true false false false 1700000000000 0 0 UnitRaw "200",
          String CR "[======>               ] 29.0% ( 58/200)").
Proof. vm_compute. reflexivity. Qed.

Example run_bytes_speed :
  run (c <- ProgressBar 10000 ;;
       c <- lift (SetUnit (ShowSpeed c true) UnitBytes) ;;
       c <- Update c 1024 ;;
       Update c 2500) (world 1700000000000 50)
  = Some (mkConfig 2500 10000 50 true false true false false
                   1700000000000 2500 1700000000400 UnitBytes "   9.8 KB",
          String CR "[==>                         ]    1.0 KB/   9.8 KB" ++
          String CR "[===>          ]    2.4 KB/   9.8 KB (   7.2 MB/s)").
Proof. vm_compute. reflexivity. Qed.

Example run_final_line :
  run (c <- ProgressBar 3 ;; c <- Update c 3 ;; ret (current c)) (world 0 12)
  = Some (3, String CR "[======] 3/3" ++ String LF "").
Proof. vm_compute. reflexivity. Qed.

(** The model of [float64] agrees with the hardware doubles of the kernel on
    the computations used as examples below. *)
Example float64_model_matches_hardware :
  SF2Q (Prim2SF (7 / 100 * 100)%float)
    = Some (F64.mul (F64.div (F64.of_int 7) (F64.of_int 100)) 100%Q) /\
  SF2Q (Prim2SF (29 / 100 * 100)%float)
    = Some (F64.mul (F64.div (F64.of_int 29) (F64.of_int 100)) 100%Q) /\
  SF2Q (Prim2SF (22 * (29 / 100 * 100) / 100)%float)
    = Some (F64.div (F64.mul (F64.of_int 22)
                       (F64.mul (F64.div (F64.of_int 29) (F64.of_int 100)) 100%Q)) 100%Q) /\
  SF2Q (Prim2SF (1476 / (200 / 1000) * 1024)%float)
    = Some (F64.mul (F64.div (F64.of_int 1476) (F64.div (F64.of_int 200) 1000%Q)) 1024%Q).
Proof. repeat split; vm_compute; reflexivity. Qed.

(** ** Strings *)

Lemma app_assoc (a b c : string) : (a ++ b) ++ c = a ++ (b ++ c).
Proof. induction a as [| ch a IH]; cbn; [reflexivity | now rewrite IH]. Qed.

Lemma app_nil_r (a : string) : a ++ "" = a.
Proof. induction a as [| ch a IH]; cbn; [reflexivity | now rewrite IH]. Qed.

Lemma length_app (a b : string) :
  String.length (a ++ b) = (String.length a + String.length b)%nat.
Proof. induction a as [| ch a IH]; cbn; [reflexivity | now rewrite IH]. Qed.

(** Pushes [String.length] through literals and concatenations. *)
Ltac len_norm :=
  repeat (cbn [append String.length];
          match goal with
          | |- context [String.length (_ ++ _)] => rewrite length_app
          end);
  cbn [append String.length].

Lemma len_app (a b : string) : len (a ++ b) = len a + len b.
Proof. unfold len. rewrite length_app. lia. Qed.

Lemma len_nonneg (a : string) : 0 <= len a.
Proof. unfold len. lia. Qed.

Lemma length_replicate n ch : String.length (replicate n ch) = n.
Proof. induction n as [| n IH]; cbn; [reflexivity | now rewrite IH]. Qed.

Lemma length_pad_left ch w s :
  String.length (pad_left ch w s) = Nat.max w (String.length s).
Proof. unfold pad_left. rewrite length_app, length_replicate. lia. Qed.



(** ** Decimal digits *)

Lemma digits_eq n :
  digits n = if n <? 10 then String (digit n) ""
             else digits (n / 10) ++ String (digit (n mod 10)) "".
Proof.
  rewrite digits_equation_1 at 1. unfold digits_unfold_clause_1.
  destruct (Z_lt_dec n 10); destruct (Z.ltb_spec n 10); try lia; reflexivity.
Qed.

Lemma length_digits_pos n : (1 <= String.length (digits n))%nat.
Proof.
  rewrite digits_eq. destruct (n <? 10); [cbn; lia |].
  rewrite length_app. cbn. lia.
Qed.

(** A number below [10^k] has at most [k] digits. *)
Lemma length_digits_le k : forall n,
  (1 <= k)%nat -> n < 10 ^ Z.of_nat k -> (String.length (digits n) <= k)%nat.
Proof.
  induction k as [| k IH]; intros n Hk Hn; [lia |].
  rewrite digits_eq. destruct (Z.ltb_spec n 10) as [H | H]; [cbn; lia |].
  rewrite length_app. cbn [String.length].
  destruct k as [| k'].
  - cbn in Hn. lia.
  - assert (Hd : n / 10 < 10 ^ Z.of_nat (S k')).
    { apply Z.div_lt_upper_bound; [lia |].
      rewrite <- Z.pow_succ_r by lia. rewrite <- Nat2Z.inj_succ. exact Hn. }
    specialize (IH (n / 10) ltac:(lia) Hd). lia.
Qed.

(** A number from [10^k] on has more than [k] digits. *)
Lemma length_digits_gt k : forall n,
  10 ^ Z.of_nat k <= n -> (k < String.length (digits n))%nat.
Proof.
  induction k as [| k IH]; intros n Hn.
  - pose proof (length_digits_pos n). lia.
  - rewrite Nat2Z.inj_succ, Z.pow_succ_r in Hn by lia.
    assert (Hp : 0 < 10 ^ Z.of_nat k) by (apply Z.pow_pos_nonneg; lia).
    rewrite digits_eq. destruct (Z.ltb_spec n 10) as [H' | H']; [lia |].
    rewrite length_app. cbn [String.length].
    assert (Hd : 10 ^ Z.of_nat k <= n / 10) by (apply Z.div_le_lower_bound; lia).
    specialize (IH (n / 10) Hd). lia.
Qed.

Lemma length_digits_mono a b :
  a <= b -> (String.length (digits a) <= String.length (digits b))%nat.
Proof.
  intros Hab. apply length_digits_le; [apply length_digits_pos |].
  destruct (Z_lt_dec a (10 ^ Z.of_nat (String.length (digits b)))) as [H | H];
    [exact H |].
  pose proof (@length_digits_gt (String.length (digits b)) b ltac:(lia)). lia.
Qed.

(** ** Line feeds *)

Lemma lf_free_app a b : lf_free a -> lf_free b -> lf_free (a ++ b).
Proof. induction a as [| ch a IH]; cbn; [auto | intros [H1 H2] Hb; auto]. Qed.

Lemma lf_free_replicate n ch : ch <> LF -> lf_free (replicate n ch).
Proof. intros H. induction n as [| n IH]; cbn; auto. Qed.

Lemma lf_free_pad_left ch w s : ch <> LF -> lf_free s -> lf_free (pad_left ch w s).
Proof. intros H Hs. unfold pad_left. apply lf_free_app; [apply lf_free_replicate, H | exact Hs]. Qed.

Lemma digit_not_LF d : d < 10 -> digit d <> LF.
Proof.
  intros H. unfold digit.
  assert (Hc : (Z.to_nat d <= 9)%nat) by lia.
  generalize dependent (Z.to_nat d). intros k Hk.
  do 10 (destruct k as [| k]; [intros E; vm_compute in E; discriminate E |]).
  lia.
Qed.

Lemma lf_free_digits n : lf_free (digits n).
Proof.
  funelim (digits n).
  - cbn. split; [apply digit_not_LF; assumption | exact I].
  - apply lf_free_app; [assumption |].
    cbn. split; [| exact I]. apply digit_not_LF.
    pose proof (Z.mod_pos_bound n 10 ltac:(lia)). lia.
Qed.

(** Closes [lf_free] goals over concatenations of literals and of the
    formatted pieces registered in the hint database [lf]. *)
Create HintDb lf.

Ltac lf_char := let E := fresh in intros E; vm_compute in E; discriminate E.

Ltac lf :=
  repeat match goal with
  | |- lf_free EmptyString => exact I
  | |- lf_free (String _ _) => split; [lf_char |]
  | |- lf_free (_ ++ _) => apply lf_free_app
  | |- lf_free (pad_left _ _ _) => apply lf_free_pad_left; [lf_char |]
  | |- lf_free (if ?b then _ else _) => destruct b
  | |- lf_free (match ?p with O => _ | S _ => _ end) => destruct p
  | |- lf_free _ => solve [auto with lf]
  end.

#[local] Hint Resolve lf_free_digits : lf.

Lemma lf_free_fmt_d z : lf_free (fmt_d z).
Proof. unfold fmt_d. lf. Qed.

Lemma lf_free_fmt_wd w z : lf_free (fmt_wd w z).
Proof. unfold fmt_wd, fmt_d. lf. Qed.

Lemma lf_free_fmt_0wd w z : lf_free (fmt_0wd w z).
Proof. unfold fmt_0wd. lf. Qed.

Lemma lf_free_fmt_f w p x : lf_free (fmt_f w p x).
Proof. unfold fmt_f. lf. Qed.

#[local] Hint Resolve lf_free_fmt_d lf_free_fmt_wd lf_free_fmt_0wd lf_free_fmt_f : lf.

Lemma lf_free_formatTime ms : lf_free (formatTime ms).
Proof. unfold formatTime. lf. Qed.

#[local] Hint Resolve lf_free_formatTime : lf.

(** ** What one render writes *)

Lemma ShowProgressBar_eq c w currentStr :
  currentStr_of c = Ok currentStr ->
  let usedTime := Int64.wrap (now1 w - startTime c) in
  ShowProgressBar c w =
    if showSpeed c then
      match speed_segment c (now2 w) with
      | Ok seg =>
          let output := suffix_of c currentStr seg usedTime in
          Ok (set_sample c (current c) (now2 w),
              tick 2 w (line_of c output ++ newline_of c))
      | Panic msg => Panic msg
      end
    else
      let output := suffix_of c currentStr "" usedTime in
      Ok (c, tick 1 w (line_of c output ++ newline_of c)).
Proof.
  intros Hcs usedTime.
  unfold ShowProgressBar, bind, lift, ret, time_Now_ms, Print, Println, Print.
  rewrite Hcs. cbn [ticks clock termWidth stdout].
  fold (now1 w) (now2 w). fold usedTime.
  assert (Hp : (if 0 <? total c then percent_of c else percent_of c) = percent_of c)
    by (destruct (0 <? total c); reflexivity).
  rewrite Hp.
  assert (Hout :
    (if showProgress c
     then if showPercent c
          then (if showPercent c then "" ++ " " ++ fmt_f 0 1 (percent_of c) ++ "%" else "")
               ++ " (" ++ currentStr ++ "/" ++ totalStr c ++ ")"
          else (if showPercent c then "" ++ " " ++ fmt_f 0 1 (percent_of c) ++ "%" else "")
               ++ " " ++ currentStr ++ "/" ++ totalStr c
     else if showPercent c then "" ++ " " ++ fmt_f 0 1 (percent_of c) ++ "%" else "")
    = head_segment c currentStr).
  { unfold head_segment. destruct (showProgress c), (showPercent c); cbn;
      rewrite ?app_nil_r; reflexivity. }
  rewrite Hout. clear Hout Hp.
  destruct (showSpeed c) eqn:Hs.
  - cbn [ticks clock termWidth stdout]. fold (now2 w).
    destruct (speed_segment c (now2 w)) as [seg | msg]; [| reflexivity].
    cbn [ticks clock termWidth stdout].
    unfold suffix_of, line_of, bar_of, newline_of, tick. cbv zeta.
    replace (percent_of (set_sample c (current c) (now2 w))) with (percent_of c) by reflexivity.
    rewrite !app_assoc.
    destruct c; cbn [total current set_sample width showUsedTime showLastTime
                       progressWidth_of time_segment] in *.
    destruct (total0 <=? current0); cbn [ticks clock termWidth stdout];
      repeat (rewrite ?app_assoc, ?app_nil_r; cbn [append]); reflexivity.
  - unfold suffix_of, line_of, bar_of, newline_of, tick. cbv zeta.
    destruct (total c <=? current c); cbn [ticks clock termWidth stdout];
      repeat (rewrite ?app_assoc, ?app_nil_r; cbn [append]); reflexivity.
Qed.

(** ** The magnitude formatter *)

(** The invariant of the loop of [formatBytes]: [n] is [bytes / div] and
    [div] is [1024 ^ (exp + 1)]; no multiplication wraps around. *)
Lemma formatBytes_loop_inv bytes n div exp :
  0 <= exp -> 1 <= n -> div = 1024 ^ (exp + 1) ->
  div * n <= bytes < div * (n + 1) -> bytes <= Int64.max_int ->
  exists d e, formatBytes_loop n div exp = (d, e) /\
              exp <= e /\ d = 1024 ^ (e + 1) /\ d <= bytes < 1024 * d.
Proof.
  funelim (formatBytes_loop n div exp); intros He Hn Hdiv Hb Hmax.
  - exists div, exp. split; [reflexivity |]. nia.
  - assert (Hpos : 0 < div) by (subst div; apply Z.pow_pos_nonneg; lia).
    assert (Hq : Z.quot n 1024 = n / 1024) by (apply Z.quot_div_nonneg; lia).
    assert (Hdm : n = 1024 * (n / 1024) + n mod 1024) by (apply Z.div_mod; lia).
    pose proof (Z.mod_pos_bound n 1024 ltac:(lia)) as Hm.
    assert (Hw1 : Int64.wrap (div * 1024) = div * 1024).
    { apply wrap_id. unfold Int64.in_range, Int64.min_int, Int64.max_int in *. nia. }
    assert (Hexp : exp + 1 < 7).
    { apply (Z.pow_lt_mono_r_iff 1024); [lia | lia |].
      unfold Int64.max_int in Hmax. change (1024 ^ 7) with (2 ^ 70). nia. }
    assert (Hw2 : Int64.wrap (exp + 1) = exp + 1).
    { apply wrap_id. unfold Int64.in_range, Int64.min_int, Int64.max_int. lia. }
    rewrite Hw1, Hw2, Hq in *.
    destruct (H bytes) as (d & e & E & Hle & Hd & Hbd); try lia.
    + rewrite Hdiv. rewrite (Z.pow_add_r 1024 (exp + 1) 1) by lia. lia.
    + nia.
    + exists d, e. split; [| lia]. exact E.
Qed.

Lemma formatBytes_small bytes :
  bytes < 1024 -> formatBytes bytes = Ok (fmt_wd 3 bytes ++ " B").
Proof. intros H. unfold formatBytes. apply Z.ltb_lt in H. now rewrite H. Qed.

Lemma formatBytes_large bytes :
  1024 <= bytes <= Int64.max_int ->
  exists div exp ch,
    formatBytes_loop (Z.quot bytes 1024) 1024 0 = (div, exp) /\
    0 <= exp <= 5 /\ div = 1024 ^ (exp + 1) /\ div <= bytes < 1024 * div /\
    index "KMGTPE" exp = Some ch /\
    formatBytes bytes =
      Ok (fmt_f 6 1 (F64.div (F64.of_int bytes) (F64.of_int div)) ++ " " ++ String ch "B").
Proof.
  intros [Hlo Hhi].
  assert (Hq : Z.quot bytes 1024 = bytes / 1024) by (apply Z.quot_div_nonneg; lia).
  assert (Hdm : bytes = 1024 * (bytes / 1024) + bytes mod 1024) by (apply Z.div_mod; lia).
  pose proof (Z.mod_pos_bound bytes 1024 ltac:(lia)) as Hm.
  destruct (@formatBytes_loop_inv bytes (Z.quot bytes 1024) 1024 0)
    as (d & e & E & He & Hd & Hb); try lia; try reflexivity.
  assert (He5 : e + 1 < 7).
  { apply (Z.pow_lt_mono_r_iff 1024); [lia | lia |].
    unfold Int64.max_int in Hhi. change (1024 ^ 7) with (2 ^ 70). lia. }
  assert (Hix : exists ch, index "KMGTPE" e = Some ch).
  { assert (Hc : e = 0 \/ e = 1 \/ e = 2 \/ e = 3 \/ e = 4 \/ e = 5) by lia.
    destruct Hc as [-> | [-> | [-> | [-> | [-> | ->]]]]]; eexists; reflexivity. }
  destruct Hix as [ch Hch].
  exists d, e, ch. repeat split; try lia; try assumption.
  unfold formatBytes. replace (bytes <? 1024) with false by (symmetry; apply Z.ltb_ge; lia).
  rewrite E, Hch. reflexivity.
Qed.

Lemma formatBytes_ok bytes : Int64.in_range bytes -> exists s, formatBytes bytes = Ok s.
Proof.
  intros [_ Hhi]. destruct (Z_lt_dec bytes 1024) as [H | H].
  - eexists. apply formatBytes_small, H.
  - destruct (@formatBytes_large bytes) as (d & e & ch & _ & _ & _ & _ & _ & E); [lia |].
    eexists. exact E.
Qed.

(** ** Renders do not panic *)

Lemma to_int64_in_range x : Int64.in_range (F64.to_int64 x).
Proof.
  unfold F64.to_int64. destruct (Int64.in_rangeb (F64.trunc x)) eqn:E.
  - apply in_rangeb_spec, E.
  - unfold Int64.in_range, Int64.min_int, Int64.max_int. lia.
Qed.

Lemma currentStr_of_ok c :
  Int64.in_range (current c) -> exists s, currentStr_of c = Ok s.
Proof.
  intros H. unfold currentStr_of. destruct (unit c).
  - eexists. reflexivity.
  - apply formatBytes_ok, H.
Qed.

Lemma speed_segment_ok c now : exists seg, speed_segment c now = Ok seg.
Proof.
  unfold speed_segment.
  destruct (0 <? lastTime c); [| eexists; reflexivity].
  destruct (0 <? Int64.wrap (now - lastTime c)); [| eexists; reflexivity].
  destruct (unit c); [eexists; reflexivity |].
  match goal with |- context [formatBytes ?b] =>
    destruct (@formatBytes_ok b (to_int64_in_range _)) as [s ->] end.
  eexists. reflexivity.
Qed.

Lemma ShowProgressBar_ok c w :
  Int64.in_range (current c) ->
  exists currentStr seg,
    currentStr_of c = Ok currentStr /\
    (if showSpeed c then speed_segment c (now2 w) = Ok seg else seg = "") /\
    ShowProgressBar c w =
      Ok (after_render c w
            (line_of c (suffix_of c currentStr seg (Int64.wrap (now1 w - startTime c)))
             ++ newline_of c)).
Proof.
  intros Hc. destruct (currentStr_of_ok c Hc) as [cs Hcs].
  rewrite (ShowProgressBar_eq c w Hcs). cbv zeta. unfold after_render.
  destruct (showSpeed c).
  - destruct (speed_segment_ok c (now2 w)) as [seg Hseg].
    exists cs, seg. rewrite Hseg. auto.
  - exists cs, "". auto.
Qed.

(** ** Every tracker the program builds satisfies [Inv] *)

Lemma Inv_current_in_range c : Inv c -> Int64.in_range (current c).
Proof. intros [_ H _ _ _ _ _ _ _]. ranges. lia. Qed.

Lemma Inv_set_sample c now :
  Inv c -> Int64.in_range now -> Inv (set_sample c (current c) now).
Proof.
  intros [H1 H2 H3 H4 H5 H6 H7 H8 H9] Hn.
  constructor; unfold totalStr_ok in *; fields; try assumption; try lia.
Qed.

Lemma Inv_ShowProgressBar c w c' w' :
  Inv c -> ShowProgressBar c w = Ok (c', w') -> Inv c'.
Proof.
  intros HI E.
  destruct (ShowProgressBar_ok c w (Inv_current_in_range HI)) as (cs & seg & _ & _ & E').
  rewrite E' in E. unfold after_render in E.
  destruct (showSpeed c); inversion E; subst; [| exact HI].
  apply Inv_set_sample; [exact HI | apply wrap_in_range].
Qed.

Lemma Inv_set_current c v :
  Inv c -> current c < v -> v <= total c -> Inv (set_current c v).
Proof.
  intros [H1 H2 H3 H4 H5 H6 H7 H8 H9] Hv Hv'.
  constructor; unfold totalStr_ok in *; fields; try assumption; ranges; lia.
Qed.

Lemma Inv_flags c c' :
  Inv c ->
  current c' = current c -> total c' = total c -> width c' = width c ->
  startTime c' = startTime c -> last c' = last c -> lastTime c' = lastTime c ->
  unit c' = unit c -> totalStr c' = totalStr c -> Inv c'.
Proof.
  intros [H1 H2 H3 H4 H5 H6 H7 H8 H9] E1 E2 E3 E4 E5 E6 E7 E8.
  constructor; unfold totalStr_ok in *; rewrite ?E1, ?E2, ?E3, ?E4, ?E5, ?E6, ?E7, ?E8;
    assumption.
Qed.

Lemma getTerminalWidth_ok w : World_ok w ->
  0 <= match termWidth w with Some n => n | None => 100 end < 2 ^ 31.
Proof. unfold World_ok. destruct (termWidth w); lia. Qed.

(** X3.  Every tracker the program can build, by [ProgressBar] followed by
    any calls of the setters, [SetUnit], [Update], [Increment],
    [ShowProgressBar] and any resizes, satisfies [Inv]: the counter stays
    between 0 and a non-negative total, the sample stays behind the counter
    and the cached total matches the unit. *)
Theorem reachable_Inv c : reachable c -> Inv c.
Proof.
  induction 1 as
    [ t w c w' Ht Hw E | c f _ IH | c f _ IH | c f _ IH | c f _ IH | c f _ IH
    | c u c' _ IH E | c v w c' w' _ IH Hv E | c w c' w' _ IH E | c w c' w' _ IH E
    | c w c' w' _ IH Hw E ].
  - unfold ProgressBar, bind, ret, time_Now_ms, getTerminalWidth in E.
    inversion E; subst; clear E.
    pose proof (wrap_in_range (clock w (ticks w))).
    pose proof (getTerminalWidth_ok w Hw).
    constructor; unfold totalStr_ok; fields; try assumption; try reflexivity;
      ranges; lia.
  - apply Inv_flags with (c := c); [exact IH | reflexivity ..].
  - apply Inv_flags with (c := c); [exact IH | reflexivity ..].
  - apply Inv_flags with (c := c); [exact IH | reflexivity ..].
  - apply Inv_flags with (c := c); [exact IH | reflexivity ..].
  - apply Inv_flags with (c := c); [exact IH | reflexivity ..].
  - destruct IH as [H1 H2 H3 H4 H5 H6 H7 H8 H9]. unfold SetUnit in E.
    destruct u.
    + inversion E; subst.
      constructor; unfold totalStr_ok in *; fields; try assumption. reflexivity.
    + destruct (formatBytes (total c)) as [s |] eqn:Es; [| discriminate].
      inversion E; subst.
      constructor; unfold totalStr_ok in *; fields; assumption.
  - unfold Update in E.
    eapply Inv_ShowProgressBar; [| exact E].
    destruct ((current c <? v) && (v <=? total c)) eqn:Hb; [| exact IH].
    apply andb_true_iff in Hb. destruct Hb as [Hb1 Hb2].
    apply Inv_set_current; [exact IH | lia | lia].
  - unfold Increment in E.
    eapply Inv_ShowProgressBar; [| exact E].
    destruct (current c <? total c) eqn:Hb; [| exact IH].
    apply Z.ltb_lt in Hb.
    rewrite wrap_id.
    + apply Inv_set_current; [exact IH | lia | lia].
    + destruct IH as [H1 H2 _ _ _ _ _ _ _]. ranges. lia.
  - eapply Inv_ShowProgressBar; [exact IH | exact E].
  - unfold Resize, bind, ret, getTerminalWidth in E.
    pose proof (getTerminalWidth_ok w Hw).
    inversion E; subst; clear E.
    destruct IH as [H1 H2 H3 H4 H5 H6 H7 H8 H9].
    constructor; unfold totalStr_ok in *; fields; assumption.
Qed.

(** ** No line feed inside a rendered line *)

Lemma lf_free_get s : forall i ch, lf_free s -> String.get i s = Some ch -> ch <> LF.
Proof.
  induction s as [| a s IH]; intros i ch Hs Hg; [discriminate |].
  destruct Hs as [Ha Hs]. destruct i as [| i]; cbn in Hg.
  - inversion Hg; subst. exact Ha.
  - exact (IH i ch Hs Hg).
Qed.

Lemma lf_free_formatBytes bytes s : formatBytes bytes = Ok s -> lf_free s.
Proof.
  unfold formatBytes. destruct (bytes <? 1024).
  - intros E. inversion E; subst. lf.
  - destruct (formatBytes_loop (Z.quot bytes 1024) 1024 0) as [d e].
    destruct (index "KMGTPE" e) as [ch |] eqn:Hch; [| discriminate].
    intros E. inversion E; subst.
    assert (Hc : ch <> LF).
    { unfold index in Hch. destruct ((0 <=? e) && (e <? len "KMGTPE")); [| discriminate].
      apply (@lf_free_get "KMGTPE" (Z.to_nat e) ch); [lf | exact Hch]. }
    apply lf_free_app; [lf |]. cbn [append].
    split; [lf_char |]. split; [exact Hc | lf].
Qed.

Lemma lf_free_currentStr c s :
  lf_free (totalStr c) -> currentStr_of c = Ok s -> lf_free s.
Proof.
  intros Ht. unfold currentStr_of. destruct (unit c).
  - intros E. inversion E; subst. lf.
  - apply lf_free_formatBytes.
Qed.

Lemma lf_free_speed_segment c now s : speed_segment c now = Ok s -> lf_free s.
Proof.
  unfold speed_segment.
  destruct (0 <? lastTime c); [| intros E; inversion E; exact I].
  destruct (0 <? Int64.wrap (now - lastTime c)); [| intros E; inversion E; exact I].
  destruct (unit c).
  - intros E. inversion E; subst. lf.
  - match goal with |- context [formatBytes ?b] =>
      destruct (formatBytes b) as [t |] eqn:Eb end; [| discriminate].
    intros E. inversion E; subst.
    pose proof (lf_free_formatBytes _ Eb). lf.
Qed.

Lemma lf_free_time_segment c percent usedTime lastTime :
  lf_free (time_segment c percent usedTime lastTime).
Proof. unfold time_segment. lf. Qed.

Lemma lf_free_head_segment c s :
  lf_free (totalStr c) -> lf_free s -> lf_free (head_segment c s).
Proof. intros Ht Hs. unfold head_segment. lf. Qed.

Lemma lf_free_totalStr c : totalStr_ok c -> lf_free (totalStr c).
Proof.
  unfold totalStr_ok. destruct (unit c).
  - intros ->. lf.
  - apply lf_free_formatBytes.
Qed.

Lemma lf_free_bar_loop n : forall i pl pw bar,
  lf_free bar -> lf_free (bar_loop n i pl pw bar).
Proof.
  induction n as [| n IH]; intros i pl pw bar Hb; cbn [bar_loop]; [exact Hb |].
  destruct (i <? pw); [| exact Hb].
  apply IH. destruct (i <? pl); [lf |]. destruct ((i =? pl) && (pl <? pw)); lf.
Qed.

(** ** The sample trackers are trackers *)

Lemma Inv_sample : Inv sample.
Proof.
  constructor; unfold totalStr_ok, sample; fields; ranges; try lia.
  vm_compute. reflexivity.
Qed.

Lemma Inv_sample_bytes : Inv sample_bytes.
Proof.
  constructor; unfold totalStr_ok, sample_bytes; fields; ranges; try lia.
  vm_compute. reflexivity.
Qed.

(** ** The percentage *)

Lemma inject_Z_nonneg z : 0 <= z -> (0 <= inject_Z z)%Q.
Proof. intros H. change 0%Q with (inject_Z 0). rewrite <- Zle_Qle. exact H. Qed.

Lemma of_int_nonneg z : 0 <= z -> (0 <= F64.of_int z)%Q.
Proof. intros H. apply round64_nonneg, inject_Z_nonneg, H. Qed.

Lemma of_int_mono a b : 0 <= a -> a <= b -> (F64.of_int a <= F64.of_int b)%Q.
Proof.
  intros Ha Hab. apply round64_mono; [apply inject_Z_nonneg, Ha |].
  rewrite <- Zle_Qle. exact Hab.
Qed.

Lemma of_int_exact z : 0 <= z <= 2 ^ 53 -> (F64.of_int z == inject_Z z)%Q.
Proof. apply round64_int. Qed.

Lemma of_int_ge_1 z : 1 <= z -> (1 <= F64.of_int z)%Q.
Proof.
  intros H. pose proof (@of_int_mono 1 z ltac:(lia) H) as Hm.
  assert (E : (F64.of_int 1 == 1)%Q) by (vm_compute; reflexivity).
  rewrite E in Hm. exact Hm.
Qed.

Lemma round64_le_const x (k : Z) :
  0 <= k <= 2 ^ 53 -> (0 <= x)%Q -> (x <= inject_Z k)%Q -> (F64.round64 x <= inject_Z k)%Q.
Proof.
  intros Hk H0 Hx. pose proof (round64_mono H0 Hx) as Hm.
  rewrite (round64_int Hk) in Hm. exact Hm.
Qed.

(** The quotient [float64(current) / float64(total)] lies between 0 and 1. *)
Lemma ratio_bounds cur tot :
  0 <= cur <= tot -> 0 < tot ->
  (0 <= F64.div (F64.of_int cur) (F64.of_int tot) <= 1)%Q.
Proof.
  intros Hc Ht.
  pose proof (of_int_nonneg (proj1 Hc)) as HA.
  pose proof (@of_int_mono cur tot (proj1 Hc) (proj2 Hc)) as HAB.
  pose proof (@of_int_ge_1 tot ltac:(lia)) as HB.
  unfold F64.div.
  assert (Hq0 : (0 <= F64.of_int cur / F64.of_int tot)%Q)
    by (apply Qle_shift_div_l; lra).
  assert (Hq1 : (F64.of_int cur / F64.of_int tot <= 1)%Q)
    by (apply Qle_shift_div_r; lra).
  split; [apply round64_nonneg, Hq0 |].
  apply (@round64_le_const _ 1); [lia | exact Hq0 | exact Hq1].
Qed.

Lemma percent_bounds c :
  (0 < total c -> 0 <= current c <= total c) ->
  (0 <= percent_of c <= 100)%Q.
Proof.
  intros H. unfold percent_of.
  destruct (Z.ltb_spec 0 (total c)) as [Ht | Ht]; [| lra].
  destruct (@ratio_bounds (current c) (total c) (H Ht) Ht) as [Hq0 Hq1].
  unfold F64.mul.
  set (q := F64.div (F64.of_int (current c)) (F64.of_int (total c))) in *.
  split; [apply round64_nonneg; lra |].
  apply (@round64_le_const _ 100); [lia | lra | change (inject_Z 100) with 100%Q; lra].
Qed.

Lemma Inv_percent_bounds c : Inv c -> (0 <= percent_of c <= 100)%Q.
Proof.
  intros [_ H2 H3 _ _ _ _ _ _]. apply percent_bounds. intros Ht. split; [lia |].
  apply H3. lia.
Qed.

(** The computed percentage is within [2^-44] of the exact one. *)
Lemma percent_error cur tot :
  1 <= cur <= tot -> tot <= 2 ^ 63 ->
  (Qabs (F64.mul (F64.div (F64.of_int cur) (F64.of_int tot)) 100
         - 100 * inject_Z cur / inject_Z tot) <= 1 # 17592186044416)%Q.
Proof.
  intros Hc Ht.
  assert (HC1 : (1 <= inject_Z cur)%Q) by (change 1%Q with (inject_Z 1); rewrite <- Zle_Qle; lia).
  assert (HCT : (inject_Z cur <= inject_Z tot)%Q) by (rewrite <- Zle_Qle; lia).
  assert (HT : (inject_Z tot <= 9223372036854775808)%Q).
  { change 9223372036854775808%Q with (inject_Z (2 ^ 63)). rewrite <- Zle_Qle. exact Ht. }
  assert (Hmin : (2 ^ (-1022) <= 1 # 18446744073709551616)%Q).
  { change (1 # 18446744073709551616)%Q with (2 ^ (-64))%Q. apply pow2_le. lia. }
  unfold F64.mul, F64.div, F64.of_int.
  set (C := inject_Z cur) in *. set (T := inject_Z tot) in *.
  destruct (@round64_rel C) as [A1 A2]; [apply (Qle_trans _ _ _ Hmin); lra |].
  destruct (@round64_rel T) as [B1 B2]; [apply (Qle_trans _ _ _ Hmin); lra |].
  set (A := F64.round64 C) in *. set (B := F64.round64 T) in *.
  unfold F64.eps in *.
  set (R := (C / T)%Q).
  assert (HR1 : (R <= 1)%Q) by (apply Qle_shift_div_r; lra).
  assert (HR0 : ((1 # 9223372036854775808) <= R)%Q) by (apply Qle_shift_div_l; lra).
  assert (HRT : forall k, (R * (T * k) == C * k)%Q) by (intros k; unfold R; field; lra).
  (* the quotient of the two converted integers *)
  assert (HX1 : (A / B <= R * (1 + (3 # 9007199254740992)))%Q).
  { apply Qle_shift_div_r; [lra |].
    assert (RB : (R * (T * (1 - (1 # 9007199254740992))) <= R * B)%Q)
      by (apply Qmult_le_l; lra).
    rewrite HRT in RB. lra. }
  assert (HX0 : (R * (1 - (2 # 9007199254740992)) <= A / B)%Q).
  { apply Qle_shift_div_l; [lra |].
    assert (RB : (R * B <= R * (T * (1 + (1 # 9007199254740992))))%Q)
      by (apply Qmult_le_l; lra).
    rewrite HRT in RB. lra. }
  set (X := (A / B)%Q) in *.
  destruct (@round64_rel X) as [Q1 Q2]; [apply (Qle_trans _ _ _ Hmin); lra |].
  unfold F64.eps in *.
  set (q := F64.round64 X) in *.
  destruct (@round64_rel (q * 100)%Q) as [P1 P2]; [apply (Qle_trans _ _ _ Hmin); lra |].
  unfold F64.eps in *.
  set (p := F64.round64 (q * 100)%Q) in *.
  assert (E : (100 * C / T == 100 * R)%Q) by (unfold R; field; lra).
  rewrite E. apply Qabs_Qle_condition. split; lra.
Qed.

(** ** Field widths *)

Lemma length_fmt_d_nonneg z : 0 <= z -> String.length (fmt_d z) = String.length (digits z).
Proof.
  intros H. unfold fmt_d. replace (z <? 0) with false by (symmetry; apply Z.ltb_ge; lia).
  reflexivity.
Qed.

Lemma length_fmt_d_le z :
  - 10 ^ 19 < z < 10 ^ 19 -> (1 <= String.length (fmt_d z) <= 20)%nat.
Proof.
  intros H. unfold fmt_d. destruct (Z.ltb_spec z 0).
  - cbn [append String.length].
    pose proof (@length_digits_le 19 (- z) ltac:(lia) ltac:(nlia)). lia.
  - pose proof (@length_digits_le 19 z ltac:(lia) ltac:(nlia)).
    pose proof (length_digits_pos z). lia.
Qed.

Lemma length_fmt_0wd_le z :
  - 10 ^ 19 < z < 10 ^ 19 -> (String.length (fmt_0wd 2 z) <= 20)%nat.
Proof.
  intros H. unfold fmt_0wd. destruct (Z.ltb_spec z 0).
  - cbn [append String.length]. rewrite length_pad_left.
    pose proof (@length_digits_le 19 (- z) ltac:(lia) ltac:(nlia)). lia.
  - rewrite length_pad_left.
    pose proof (@length_digits_le 19 z ltac:(lia) ltac:(nlia)). lia.
Qed.

(** A non-negative value of at most [B < 10^k] prints with between one and
    [k] digits before the point. *)
Lemma length_fmt_f w p x B k :
  (1 <= p)%nat -> (1 <= k)%nat -> B < 10 ^ Z.of_nat k ->
  (0 <= x)%Q -> (x <= inject_Z B)%Q ->
  exists d, (1 <= d <= k)%nat /\
            String.length (fmt_f w p x) = Nat.max w (d + 1 + p).
Proof.
  intros Hp Hk HB Hx0 HxB. unfold fmt_f.
  set (scale := 10 ^ Z.of_nat p).
  assert (Hs : 0 < scale) by (apply Z.pow_pos_nonneg; lia).
  set (n := F64.rne (Qabs x * inject_Z scale)%Q).
  assert (Hsq : (0 <= inject_Z scale)%Q) by (apply inject_Z_nonneg; lia).
  assert (Hn0 : 0 <= n).
  { change 0 with (F64.rne 0). apply rne_mono.
    rewrite (Qabs_pos x Hx0). apply Qmult_le_0_compat; assumption. }
  assert (HnB : n <= B * scale).
  { rewrite <- (rne_Z (B * scale)). apply rne_mono.
    rewrite (Qabs_pos x Hx0), inject_Z_mult.
    apply Qmult_le_compat_r; assumption. }
  assert (Hq : n / scale <= B) by (apply Z.div_le_upper_bound; lia).
  assert (Hq0 : 0 <= n / scale) by (apply Z.div_pos; lia).
  pose proof (Z.mod_pos_bound n scale Hs) as Hm.
  exists (String.length (digits (n / scale))). split.
  - split; [apply length_digits_pos |]. apply length_digits_le; lia.
  - replace (Qle_bool 0 x) with true by (symmetry; apply Qle_bool_iff; exact Hx0).
    destruct p as [| p']; [lia |].
    rewrite length_pad_left. cbn [append]. rewrite length_app.
    cbn [append String.length]. rewrite length_pad_left.
    pose proof (@length_digits_le (S p') (n mod scale) ltac:(lia) ltac:(subst scale; lia)).
    lia.
Qed.

(** The value shown by the K..E branch of [formatBytes] is between 0 and
    1024. *)
Lemma formatBytes_value_bounds bytes div exp :
  0 <= exp -> div = 1024 ^ (exp + 1) -> div <= bytes < 1024 * div ->
  (0 <= F64.div (F64.of_int bytes) (F64.of_int div) <= 1024)%Q.
Proof.
  intros He Hd Hb.
  assert (Hd2 : div = 2 ^ (10 * (exp + 1))).
  { rewrite Hd. change 1024 with (2 ^ 10). rewrite <- Z.pow_mul_r by lia. reflexivity. }
  assert (Hdpos : 0 < div) by (rewrite Hd2; apply Z.pow_pos_nonneg; lia).
  assert (Hk : 1024 * div = 2 ^ (10 * (exp + 2))).
  { rewrite Hd2. change 1024 with (2 ^ 10). rewrite <- Z.pow_add_r by lia.
    f_equal. lia. }
  assert (ED : (F64.of_int div == inject_Z div)%Q).
  { rewrite Hd2. apply round64_pow2. lia. }
  assert (EK : (F64.of_int (1024 * div) == inject_Z (1024 * div))%Q).
  { rewrite Hk. apply round64_pow2. lia. }
  pose proof (@of_int_nonneg bytes ltac:(lia)) as HA0.
  pose proof (@of_int_mono bytes (1024 * div) ltac:(lia) ltac:(lia)) as HA1.
  rewrite EK, inject_Z_mult in HA1.
  assert (HD : (1 <= inject_Z div)%Q)
    by (change 1%Q with (inject_Z 1); rewrite <- Zle_Qle; lia).
  unfold F64.div. rewrite ED.
  assert (Hq0 : (0 <= F64.of_int bytes / inject_Z div)%Q)
    by (apply Qle_shift_div_l; lra).
  assert (Hq1 : (F64.of_int bytes / inject_Z div <= 1024)%Q).
  { apply Qle_shift_div_r; [lra |]. change (inject_Z 1024) with 1024%Q in HA1. lra. }
  split; [apply round64_nonneg, Hq0 |].
  apply (@round64_le_const _ 1024); [lia | exact Hq0 | exact Hq1].
Qed.

(** The widths [formatBytes] produces. *)
Lemma length_formatBytes bytes s :
  Int64.in_range bytes -> formatBytes bytes = Ok s ->
  (1024 <= bytes -> String.length s = 9%nat) /\
  (0 <= bytes < 1000 -> String.length s = 5%nat) /\
  (1000 <= bytes < 1024 -> String.length s = 6%nat) /\
  (String.length s <= 22)%nat.
Proof.
  intros Hr E. destruct (Z_lt_dec bytes 1024) as [Hlt | Hge].
  - rewrite (formatBytes_small Hlt) in E. inversion E; subst; clear E.
    rewrite length_app. unfold fmt_wd. rewrite length_pad_left. cbn [String.length].
    pose proof (@length_fmt_d_le bytes ltac:(ranges; lia)) as Hd.
    split; [lia |]. split; [| split; [| lia]].
    + intros H. rewrite (length_fmt_d_nonneg (proj1 H)).
      pose proof (@length_digits_le 3 bytes ltac:(lia) ltac:(nlia)). lia.
    + intros H. rewrite (@length_fmt_d_nonneg bytes ltac:(lia)).
      pose proof (@length_digits_le 4 bytes ltac:(lia) ltac:(nlia)).
      pose proof (@length_digits_gt 3 bytes ltac:(nlia)). lia.
  - destruct (@formatBytes_large bytes) as (d & e & ch & _ & He & Hd & Hb & _ & E');
      [ranges; lia |].
    rewrite E' in E. inversion E; subst s; clear E.
    destruct (@formatBytes_value_bounds bytes d e ltac:(lia) Hd Hb) as [V0 V1].
    destruct (@length_fmt_f 6 1 _ 1024 4 ltac:(lia) ltac:(lia) ltac:(nlia) V0 V1)
      as (k & Hk & Hlen).
    rewrite length_app, Hlen. cbn [append String.length]. lia.
Qed.

(** ** The bar *)





(** ** The filled length *)

Lemma trunc_nonneg x : (0 <= x)%Q -> F64.trunc x = Qfloor x.
Proof.
  destruct x as [n d]. unfold Qle, F64.trunc, Qfloor. cbn. intros H.
  apply Z.quot_div_nonneg; lia.
Qed.

Lemma progressLength_bounds w percent :
  0 <= w < 2 ^ 31 -> (0 <= percent <= 100)%Q ->
  progressLength_of w percent
  = Qfloor (F64.div (F64.mul (F64.of_int w) percent) 100%Q) /\
  0 <= progressLength_of w percent <= w.
Proof.
  intros Hw [Hp0 Hp1]. unfold progressLength_of, F64.to_int64.
  pose proof (@of_int_exact w ltac:(lia)) as EW.
  pose proof (inject_Z_nonneg (proj1 Hw)) as HW0.
  unfold F64.div, F64.mul.
  set (W := F64.of_int w) in *.
  assert (HM0 : (0 <= W * percent)%Q) by (apply Qmult_le_0_compat; lra).
  assert (HM1 : (W * percent <= inject_Z (w * 100))%Q).
  { rewrite inject_Z_mult. change (inject_Z 100) with 100%Q.
    assert ((W * percent <= W * 100)%Q) by (apply Qmult_le_compat_nonneg; lra).
    lra. }
  pose proof (@round64_le_const _ (w * 100) ltac:(lia) HM0 HM1) as Hm1.
  pose proof (round64_nonneg HM0) as Hm0.
  set (m := F64.round64 (W * percent)%Q) in *.
  rewrite inject_Z_mult in Hm1. change (inject_Z 100) with 100%Q in Hm1.
  assert (HX0 : (0 <= m / 100)%Q) by (apply Qle_shift_div_l; lra).
  assert (HX1 : (m / 100 <= inject_Z w)%Q) by (apply Qle_shift_div_r; lra).
  pose proof (@round64_le_const _ w ltac:(lia) HX0 HX1) as Hx1.
  pose proof (round64_nonneg HX0) as Hx0.
  set (x := F64.round64 (m / 100)%Q) in *.
  rewrite (trunc_nonneg Hx0).
  pose proof (Qfloor_resp_le _ _ Hx0) as F0. change (Qfloor 0) with 0 in F0.
  pose proof (Qfloor_resp_le _ _ Hx1) as F1. rewrite Qfloor_Z in F1.
  replace (Int64.in_rangeb (Qfloor x)) with true
    by (symmetry; apply in_rangeb_spec; ranges; lia).
  split; [reflexivity | lia].
Qed.

(** ** The length of the annotation suffix *)

Lemma quot_abs_le a b : 0 < b -> Z.abs (Z.quot a b) <= Z.abs a.
Proof.
  intros Hb. rewrite <- Z.quot_abs by lia. rewrite (Z.abs_eq b) by lia.
  rewrite Z.quot_div_nonneg by lia.
  apply Z.div_le_upper_bound; [lia |]. pose proof (Z.abs_nonneg a). nia.
Qed.

Lemma length_formatTime ms :
  Int64.in_range ms -> (String.length (formatTime ms) <= 62)%nat.
Proof.
  intros Hr. unfold formatTime.
  pose proof (@quot_abs_le ms 1000 ltac:(lia)) as H1.
  pose proof (@quot_abs_le (Z.quot ms 1000) 3600 ltac:(lia)) as H2.
  pose proof (@Z.rem_bound_abs (Z.quot ms 1000) 3600 ltac:(lia)) as H3.
  pose proof (@quot_abs_le (Z.rem (Z.quot ms 1000) 3600) 60 ltac:(lia)) as H4.
  pose proof (@Z.rem_bound_abs (Z.rem (Z.quot ms 1000) 3600) 60 ltac:(lia)) as H5.
  ranges.
  pose proof (@length_fmt_0wd_le (Z.quot (Z.quot ms 1000) 3600) ltac:(lia)).
  pose proof (@length_fmt_0wd_le (Z.quot (Z.rem (Z.quot ms 1000) 3600) 60) ltac:(lia)).
  pose proof (@length_fmt_0wd_le (Z.rem (Z.rem (Z.quot ms 1000) 3600) 60) ltac:(lia)).
  len_norm. lia.
Qed.

(** The rate shown is between 0 and [2^73] when the counter has not gone
    backwards and at least a millisecond has passed. *)
Lemma speed_bounds a dur :
  0 <= a <= 2 ^ 63 -> 1 <= dur ->
  (0 <= F64.div (F64.of_int a) (F64.div (F64.of_int dur) 1000%Q)
   <= inject_Z (2 ^ 73))%Q.
Proof.
  intros Ha Hd.
  pose proof (of_int_nonneg (proj1 Ha)) as HA0.
  pose proof (@of_int_mono a (2 ^ 63) (proj1 Ha) (proj2 Ha)) as HA1.
  assert (E63 : (F64.of_int (2 ^ 63) == inject_Z (2 ^ 63))%Q) by (apply round64_pow2; lia).
  rewrite E63 in HA1.
  pose proof (of_int_ge_1 Hd) as HD1.
  assert (HD : ((1 # 1024) <= F64.div (F64.of_int dur) 1000)%Q).
  { unfold F64.div.
    assert (E : (F64.round64 (1 # 1024) == 1 # 1024)%Q) by (vm_compute; reflexivity).
    rewrite <- E. apply round64_mono; [lra |].
    apply Qle_shift_div_l; lra. }
  set (A := F64.of_int a) in *. set (D := F64.div (F64.of_int dur) 1000%Q) in *.
  unfold F64.div at 1 2.
  assert (Hq0 : (0 <= A / D)%Q) by (apply Qle_shift_div_l; lra).
  assert (Hq1 : (A / D <= inject_Z (2 ^ 73))%Q).
  { apply Qle_shift_div_r; [lra |].
    change (inject_Z (2 ^ 73)) with 9444732965739290427392%Q.
    change (inject_Z (2 ^ 63)) with 9223372036854775808%Q in HA1.
    assert (9444732965739290427392 * (1 # 1024) <= 9444732965739290427392 * D)%Q
      by (apply Qmult_le_l; lra).
    lra. }
  split; [apply round64_nonneg, Hq0 |].
  pose proof (round64_mono Hq0 Hq1) as Hm.
  rewrite (@round64_pow2 73) in Hm by lia. exact Hm.
Qed.

Lemma length_speed_segment c now seg :
  Inv c -> speed_segment c now = Ok seg -> (String.length seg <= 36)%nat.
Proof.
  intros HI. unfold speed_segment.
  destruct (0 <? lastTime c); [| intros E; inversion E; cbn; lia].
  destruct (Z.ltb_spec 0 (Int64.wrap (now - lastTime c))) as [Hd | Hd];
    [| intros E; inversion E; cbn; lia].
  destruct (unit c).
  - intros E. inversion E; subst seg; clear E.
    assert (Ha : 0 <= Int64.wrap (current c - last c) <= 2 ^ 63).
    { destruct HI as [_ H2 _ _ H5 _ _ _ _]. rewrite wrap_id by (ranges; lia).
      ranges. lia. }
    destruct (@speed_bounds _ (Int64.wrap (now - lastTime c)) Ha ltac:(lia)) as [S0 S1].
    destruct (@length_fmt_f 7 2 _ (2 ^ 73) 22 ltac:(lia) ltac:(lia) ltac:(nlia) S0 S1)
      as (d & Hdd & Hlen).
    len_norm. rewrite Hlen. lia.
  - match goal with |- context [formatBytes ?b] =>
      destruct (formatBytes b) as [t |] eqn:Eb end; [| discriminate].
    intros E. inversion E; subst seg; clear E.
    destruct (length_formatBytes (to_int64_in_range _) Eb) as (_ & _ & _ & Hl).
    len_norm. lia.
Qed.

Lemma length_totalStr c : Inv c -> (String.length (totalStr c) <= 22)%nat.
Proof.
  intros [H1 _ _ _ _ _ _ _ H9]. unfold totalStr_ok in H9. destruct (unit c).
  - rewrite H9. pose proof (@length_fmt_d_le (total c) ltac:(ranges; lia)). lia.
  - destruct (length_formatBytes H1 H9) as (_ & _ & _ & Hl). exact Hl.
Qed.

Lemma length_currentStr c cs :
  Inv c -> currentStr_of c = Ok cs -> (String.length cs <= 22)%nat.
Proof.
  intros HI. pose proof (length_totalStr HI) as Ht.
  pose proof (Inv_current_in_range HI) as Hc.
  unfold currentStr_of. destruct (unit c).
  - intros E. inversion E; subst cs; clear E.
    unfold fmt_wd. rewrite length_pad_left.
    pose proof (@length_fmt_d_le (current c) ltac:(ranges; lia)). lia.
  - intros E. destruct (length_formatBytes Hc E) as (_ & _ & _ & Hl). exact Hl.
Qed.

Lemma length_head_segment c cs :
  Inv c -> currentStr_of c = Ok cs -> (String.length (head_segment c cs) <= 55)%nat.
Proof.
  intros HI Hcs. pose proof (length_totalStr HI) as Ht.
  pose proof (length_currentStr HI Hcs) as Hc.
  destruct (Inv_percent_bounds HI) as [P0 P1].
  destruct (@length_fmt_f 0 1 _ 100 3 ltac:(lia) ltac:(lia) ltac:(nlia) P0 P1)
    as (d & Hd & Hlen).
  unfold head_segment.
  destruct (showPercent c), (showProgress c);
    len_norm; rewrite ?Hlen; lia.
Qed.

Lemma length_time_segment c percent usedTime lastTime :
  Int64.in_range usedTime -> Int64.in_range lastTime ->
  (String.length (time_segment c percent usedTime lastTime) <= 144)%nat.
Proof.
  intros Hu Hl. pose proof (length_formatTime Hu). pose proof (length_formatTime Hl).
  unfold time_segment.
  destruct (showUsedTime c), (showLastTime c), (fpos percent);
    cbn [andb]; len_norm; lia.
Qed.

Lemma remaining_in_range percent usedTime : Int64.in_range (remaining_of percent usedTime).
Proof.
  unfold remaining_of. destruct (fpos percent); [apply to_int64_in_range |].
  ranges. lia.
Qed.

(** The suffix of a render is short. *)
Lemma length_suffix c cs seg usedTime :
  Inv c -> currentStr_of c = Ok cs -> (String.length seg <= 36)%nat ->
  Int64.in_range usedTime ->
  (String.length (suffix_of c cs seg usedTime) <= 235)%nat.
Proof.
  intros HI Hcs Hseg Hu. unfold suffix_of.
  pose proof (length_head_segment HI Hcs).
  pose proof (@length_time_segment c (percent_of c) usedTime
                (remaining_of (percent_of c) usedTime) Hu
                (remaining_in_range _ _)).
  len_norm. lia.
Qed.

(** So the subtraction that gives the bar its width does not wrap around. *)
Lemma progressWidth_exact c output :
  0 <= width c < 2 ^ 31 -> (String.length output <= 235)%nat ->
  progressWidth_of c output = width c - len output - 2.
Proof.
  intros Hw Hl. unfold progressWidth_of, len.
  rewrite (@wrap_id (width c - _)) by (ranges; lia).
  apply wrap_id. ranges. lia.
Qed.

(** ** One render of a tracker *)

Lemma render_Inv c w :
  Inv c ->
  exists currentStr seg,
    currentStr_of c = Ok currentStr /\
    (if showSpeed c then speed_segment c (now2 w) = Ok seg else seg = "") /\
    let output := suffix_of c currentStr seg (Int64.wrap (now1 w - startTime c)) in
    ShowProgressBar c w = Ok (after_render c w (line_of c output ++ newline_of c)) /\
    progressWidth_of c output = width c - len output - 2 /\
    0 <= len output <= 235.
Proof.
  intros HI.
  destruct (ShowProgressBar_ok c w (Inv_current_in_range HI)) as (cs & seg & Hcs & Hseg & E).
  exists cs, seg. split; [exact Hcs |]. split; [exact Hseg |]. cbv zeta.
  split; [exact E |].
  assert (Hs : (String.length seg <= 36)%nat).
  { destruct (showSpeed c); [eapply length_speed_segment; eassumption | subst; cbn; lia]. }
  pose proof (@length_suffix c cs seg (Int64.wrap (now1 w - startTime c)) HI Hcs Hs
                (wrap_in_range _)) as Hl.
  split; [apply progressWidth_exact; [apply HI | exact Hl] |].
  unfold len. lia.
Qed.

Lemma stdout_after_render c w line :
  stdout (snd (after_render c w line)) = stdout w ++ line.
Proof. unfold after_render, tick. destruct (showSpeed c); reflexivity. Qed.

Lemma line_of_eq c output :
  line_of c output ++ newline_of c
  = String CR ("[" ++ bar_of c output ++ "]" ++ output) ++ newline_of c.
Proof. unfold line_of. repeat (rewrite ?app_assoc; cbn [append]). reflexivity. Qed.

(** ** The properties of the specification *)

(** C10.  [formatBytes] returns for every [int64]: below 1024, zero and the
    negative numbers included, it takes the plain [%3d B] branch; from 1024
    up to the largest [int64] the loop leaves an exponent of at most 5, the
    index into ["KMGTPE"] is in bounds, and the K..E branch returns. *)
Theorem C10_formatBytes_total (bytes : Z) :
  Int64.in_range bytes ->
  (exists s, formatBytes bytes = Ok s) /\
  (bytes < 1024 -> formatBytes bytes = Ok (fmt_wd 3 bytes ++ " B")) /\
  (1024 <= bytes ->
   exists div exp ch,
     formatBytes_loop (Z.quot bytes 1024) 1024 0 = (div, exp) /\
     0 <= exp <= 5 /\
     index "KMGTPE" exp = Some ch /\
     formatBytes bytes =
       Ok (fmt_f 6 1 (F64.div (F64.of_int bytes) (F64.of_int div)) ++ " " ++ String ch "B")).
Proof.
  intros Hr. split; [apply formatBytes_ok, Hr |]. split.
  - apply formatBytes_small.
  - intros Hb. destruct Hr as [_ Hhi].
    destruct (@formatBytes_large bytes) as (d & e & ch & E & He & _ & _ & Hch & Hf); [lia |].
    exists d, e, ch. auto.
Qed.

Lemma C10_formatBytes_total_witness :
  Int64.in_range Int64.max_int /\
  ((exists s, formatBytes Int64.max_int = Ok s) /\
   (Int64.max_int < 1024 ->
    formatBytes Int64.max_int = Ok (fmt_wd 3 Int64.max_int ++ " B")) /\
   (1024 <= Int64.max_int ->
    exists div exp ch,
      formatBytes_loop (Z.quot Int64.max_int 1024) 1024 0 = (div, exp) /\
      0 <= exp <= 5 /\
      index "KMGTPE" exp = Some ch /\
      formatBytes Int64.max_int =
        Ok (fmt_f 6 1 (F64.div (F64.of_int Int64.max_int) (F64.of_int div))
            ++ " " ++ String ch "B"))).
Proof.
  assert (H : Int64.in_range Int64.max_int) by (vm_compute; split; discriminate).
  split; [exact H | apply (C10_formatBytes_total H)].
Defined.

(** C8.  A render stores the counter and the clock reading of the speed
    block in [last]/[lastTime] exactly when speed display is on, and leaves
    every other field of the tracker as it was. *)
Theorem C8_render_frame (c : Config) (w : World) :
  Int64.in_range (current c) ->
  exists c' w',
    ShowProgressBar c w = Ok (c', w') /\
    (showSpeed c = true -> last c' = current c /\ lastTime c' = now2 w) /\
    (showSpeed c = false -> last c' = last c /\ lastTime c' = lastTime c) /\
    current c' = current c /\ total c' = total c /\ startTime c' = startTime c /\
    unit c' = unit c /\ totalStr c' = totalStr c /\ width c' = width c /\
    showProgress c' = showProgress c /\ showPercent c' = showPercent c /\
    showSpeed c' = showSpeed c /\ showUsedTime c' = showUsedTime c /\
    showLastTime c' = showLastTime c.
Proof.
  intros Hc.
  destruct (ShowProgressBar_ok c w Hc) as (cs & seg & _ & _ & E).
  rewrite E. unfold after_render.
  destruct (showSpeed c) eqn:Hs; eexists; eexists; (split; [reflexivity |]);
    fields; repeat split; try reflexivity; try congruence; intros; discriminate.
Qed.

Lemma C8_render_frame_witness :
  Int64.in_range (current sample) /\
  exists c' w',
    ShowProgressBar sample sample_world = Ok (c', w') /\
    (showSpeed sample = true ->
     last c' = current sample /\ lastTime c' = now2 sample_world) /\
    (showSpeed sample = false ->
     last c' = last sample /\ lastTime c' = lastTime sample) /\
    current c' = current sample /\ total c' = total sample /\
    startTime c' = startTime sample /\
    unit c' = unit sample /\ totalStr c' = totalStr sample /\ width c' = width sample /\
    showProgress c' = showProgress sample /\ showPercent c' = showPercent sample /\
    showSpeed c' = showSpeed sample /\ showUsedTime c' = showUsedTime sample /\
    showLastTime c' = showLastTime sample.
Proof.
  assert (H : Int64.in_range (current sample)) by (vm_compute; split; discriminate).
  split; [exact H | apply (C8_render_frame sample sample_world H)].
Defined.

(** A render starts its line with a carriage return and an opening bracket. *)
Lemma ShowProgressBar_line c w :
  Int64.in_range (current c) ->
  exists c' w' rest,
    ShowProgressBar c w = Ok (c', w') /\
    stdout w' = stdout w ++ String CR ("[" ++ rest) /\
    current c' = current c /\ total c' = total c.
Proof.
  intros Hc.
  destruct (ShowProgressBar_ok c w Hc) as (cs & seg & _ & _ & E).
  rewrite E. unfold after_render, line_of, tick.
  destruct (showSpeed c); eexists; eexists; eexists;
    (split; [reflexivity |]); fields; cbn [stdout append];
    rewrite ?app_assoc; cbn [append]; repeat split; reflexivity.
Qed.

(** C9.  [Increment] is [Update] at [current + 1]: both add one to the
    counter when it is below the total and leave it alone otherwise, and
    both then render. *)
Theorem C9_increment_is_update_succ (c : Config) (w : World) :
  Int64.in_range (current c) -> Int64.in_range (total c) ->
  Increment c w = Update c (Int64.wrap (current c + 1)) w /\
  exists c' w' rest,
    Increment c w = Ok (c', w') /\
    current c' = (if current c <? total c then current c + 1 else current c) /\
    stdout w' = stdout w ++ String CR ("[" ++ rest).
Proof.
  intros Hc Ht. unfold Increment, Update.
  destruct (Z.ltb_spec (current c) (total c)) as [Hlt | Hge].
  - assert (Hw : Int64.wrap (current c + 1) = current c + 1)
      by (apply wrap_id; ranges; lia).
    rewrite Hw.
    replace ((current c <? current c + 1) && (current c + 1 <=? total c)) with true
      by (symmetry; apply andb_true_iff; split; [apply Z.ltb_lt | apply Z.leb_le]; lia).
    split; [reflexivity |].
    destruct (@ShowProgressBar_line (set_current c (current c + 1)) w)
      as (c' & w' & rest & E & Hout & Hcur & _); [fields; ranges; lia |].
    exists c', w', rest. fields. auto.
  - assert (Hb : (current c <? Int64.wrap (current c + 1))
                 && (Int64.wrap (current c + 1) <=? total c) = false).
    { apply andb_false_iff.
      destruct (Z.eq_dec (current c) Int64.max_int) as [E | E].
      - left. apply Z.ltb_ge. rewrite E. vm_compute. discriminate.
      - right. apply Z.leb_gt. rewrite wrap_id by (ranges; lia). lia. }
    rewrite Hb. split; [reflexivity |].
    destruct (@ShowProgressBar_line c w) as (c' & w' & rest & E & Hout & Hcur & _);
      [exact Hc |].
    exists c', w', rest. auto.
Qed.

Lemma C9_increment_is_update_succ_witness :
  Int64.in_range (current sample) /\ Int64.in_range (total sample) /\
  (Increment sample sample_world
   = Update sample (Int64.wrap (current sample + 1)) sample_world /\
   exists c' w' rest,
     Increment sample sample_world = Ok (c', w') /\
     current c' = (if current sample <? total sample
                   then current sample + 1 else current sample) /\
     stdout w' = stdout sample_world ++ String CR ("[" ++ rest)).
Proof.
  assert (H1 : Int64.in_range (current sample)) by (vm_compute; split; discriminate).
  assert (H2 : Int64.in_range (total sample)) by (vm_compute; split; discriminate).
  split; [exact H1 |]. split; [exact H2 |].
  apply (C9_increment_is_update_succ sample sample_world H1 H2).
Defined.

(** What a single [Update] does to the counter. *)
Lemma Update_spec c v w :
  Int64.in_range (current c) -> Int64.in_range (total c) ->
  exists c' w',
    Update c v w = Ok (c', w') /\
    current c' = (if (current c <? v) && (v <=? total c) then v else current c) /\
    total c' = total c.
Proof.
  intros Hc Ht. unfold Update.
  destruct ((current c <? v) && (v <=? total c)) eqn:Hb.
  - apply andb_true_iff in Hb. destruct Hb as [H1 H2].
    apply Z.ltb_lt in H1. apply Z.leb_le in H2.
    destruct (@ShowProgressBar_line (set_current c v) w)
      as (c' & w' & rest & E & _ & Hcur & Htot); [fields; ranges; lia |].
    exists c', w'. fields. auto.
  - destruct (@ShowProgressBar_line c w) as (c' & w' & rest & E & _ & Hcur & Htot);
      [exact Hc |].
    exists c', w'. auto.
Qed.

Lemma Updates_spec vs : forall c w,
  Int64.in_range (current c) -> Int64.in_range (total c) ->
  exists cs w',
    Updates c vs w = Ok (cs, w') /\
    List.length cs = List.length vs /\
    Sorted Z.le (map current (c :: cs)) /\
    (current c <= total c -> Forall (fun c' => current c' <= total c) cs).
Proof.
  induction vs as [| v vs IH]; intros c w Hc Ht.
  - exists nil, w. repeat split; cbn; auto.
  - destruct (Update_spec c v w Hc Ht) as (c1 & w1 & E1 & Hcur & Htot).
    assert (Hle : current c <= current c1).
    { rewrite Hcur. destruct ((current c <? v) && (v <=? total c)) eqn:Hb; [| lia].
      apply andb_true_iff in Hb. destruct Hb as [H1 _]. apply Z.ltb_lt in H1. lia. }
    assert (Hub : current c <= total c -> current c1 <= total c).
    { intros H. rewrite Hcur.
      destruct ((current c <? v) && (v <=? total c)) eqn:Hb; [| lia].
      apply andb_true_iff in Hb. destruct Hb as [_ H2]. apply Z.leb_le in H2. lia. }
    assert (Hc1 : Int64.in_range (current c1)).
    { rewrite Hcur.
      destruct ((current c <? v) && (v <=? total c)) eqn:Hb; [| exact Hc].
      apply andb_true_iff in Hb. destruct Hb as [H1 H2].
      apply Z.ltb_lt in H1. apply Z.leb_le in H2. ranges. lia. }
    destruct (IH c1 w1 Hc1 ltac:(rewrite Htot; exact Ht)) as (cs & w' & E & Hlen & Hs & Hf).
    exists (c1 :: cs), w'. cbn [Updates]. unfold bind at 1. rewrite E1.
    unfold bind at 1. rewrite E. unfold ret.
    split; [reflexivity |]. split; [cbn; lia |]. split.
    + cbn [map]. constructor; [exact Hs |]. constructor. exact Hle.
    + intros H. constructor; [apply Hub, H |].
      rewrite Htot in Hf. apply Hf, Hub, H.
Qed.

(** C1, as the code has it.  [Update v] stores [v] exactly when
    [current < v <= total] and otherwise leaves the counter alone, without
    failing; over any sequence of calls the counter never decreases, and it
    stays at or below the total when it started there. *)
Theorem C1_update_monotone_clamped (c : Config) :
  Int64.in_range (current c) -> Int64.in_range (total c) ->
  (forall v w, exists c' w',
      Update c v w = Ok (c', w') /\
      current c' = (if (current c <? v) && (v <=? total c) then v else current c)) /\
  (forall vs w, exists cs w',
      Updates c vs w = Ok (cs, w') /\
      List.length cs = List.length vs /\
      Sorted Z.le (map current (c :: cs)) /\
      (current c <= total c -> Forall (fun c' => current c' <= total c) cs)).
Proof.
  intros Hc Ht. split.
  - intros v w. destruct (Update_spec c v w Hc Ht) as (c' & w' & E & Hcur & _).
    exists c', w'. auto.
  - intros vs w. apply Updates_spec; assumption.
Qed.

Lemma C1_update_monotone_clamped_witness :
  Int64.in_range (current sample) /\ Int64.in_range (total sample) /\
  ((forall v w, exists c' w',
       Update sample v w = Ok (c', w') /\
       current c' = (if (current sample <? v) && (v <=? total sample)
                     then v else current sample)) /\
   (forall vs w, exists cs w',
       Updates sample vs w = Ok (cs, w') /\
       List.length cs = List.length vs /\
       Sorted Z.le (map current (sample :: cs)) /\
       (current sample <= total sample ->
        Forall (fun c' => current c' <= total sample) cs))).
Proof.
  assert (H1 : Int64.in_range (current sample)) by (vm_compute; split; discriminate).
  assert (H2 : Int64.in_range (total sample)) by (vm_compute; split; discriminate).
  split; [exact H1 |]. split; [exact H2 |].
  apply (C1_update_monotone_clamped sample H1 H2).
Defined.

(** C1 as stated fails for a tracker built with a negative total: its counter
    is above the total from the start and every update leaves it there. *)
Lemma C1_counterexample :
  exists c w c' w',
    ProgressBar (-1) (world 0 80) = Ok (c, w) /\
    Update c 5 w = Ok (c', w') /\
    current c' = 0 /\ total c' = -1 /\ ~ current c' <= total c'.
Proof.
  destruct (ProgressBar (-1) (world 0 80)) as [[c w] |] eqn:E0;
    [| vm_compute in E0; discriminate].
  destruct (Update c 5 w) as [[c' w'] |] eqn:E1.
  - exists c, w, c', w'. split; [reflexivity |]. split; [exact E1 |].
    vm_compute in E0. inversion E0; subst; clear E0.
    vm_compute in E1. inversion E1; subst; clear E1.
    cbn. repeat split; lia.
  - exfalso. vm_compute in E0. inversion E0; subst; clear E0.
    vm_compute in E1. discriminate.
Qed.

(** C4, as the code has it.  A render writes a carriage return, an opening
    bracket, text without any line feed, and then a line feed exactly when
    [current >= total]; for a tracker with a total of at least zero that is
    exactly when [current == total]. *)
Theorem C4_line_break_on_completion (c : Config) (w : World) :
  Inv c ->
  exists c' w' body,
    ShowProgressBar c w = Ok (c', w') /\
    stdout w' = stdout w ++ String CR ("[" ++ body)
                ++ (if total c <=? current c then String LF "" else "") /\
    lf_free body /\
    (0 <= total c -> (total c <=? current c) = (current c =? total c)).
Proof.
  intros HI. pose proof (Inv_current_in_range HI) as Hc.
  destruct (ShowProgressBar_ok c w Hc) as (cs & seg & Hcs & Hseg & E).
  assert (Ht : lf_free (totalStr c)) by (apply lf_free_totalStr, HI).
  assert (Hs : lf_free seg).
  { destruct (showSpeed c); [eapply lf_free_speed_segment; exact Hseg | subst; exact I]. }
  set (output := suffix_of c cs seg (Int64.wrap (now1 w - startTime c))) in *.
  assert (Ho : lf_free output).
  { unfold output, suffix_of. apply lf_free_app.
    - apply lf_free_head_segment; [exact Ht |]. eapply lf_free_currentStr; eassumption.
    - apply lf_free_app; [exact Hs | apply lf_free_time_segment]. }
  exists (fst (after_render c w (line_of c output ++ newline_of c))),
         (snd (after_render c w (line_of c output ++ newline_of c))),
         (bar_of c output ++ "]" ++ output).
  split; [rewrite E; now destruct (after_render _ _ _) |]. split.
  - unfold after_render, line_of, newline_of, tick.
    destruct (showSpeed c); cbn [snd stdout append];
      repeat (rewrite ?app_assoc; cbn [append]); reflexivity.
  - split.
    + apply lf_free_app; [| lf; exact Ho].
      unfold bar_of. apply lf_free_bar_loop. exact I.
    + intros H0. destruct HI as [_ _ Hb _ _ _ _ _ _]. specialize (Hb H0).
      destruct (Z.leb_spec (total c) (current c)); destruct (Z.eqb_spec (current c) (total c));
        lia || reflexivity.
Qed.

Lemma C4_line_break_on_completion_witness :
  Inv sample /\
  exists c' w' body,
    ShowProgressBar sample sample_world = Ok (c', w') /\
    stdout w' = stdout sample_world ++ String CR ("[" ++ body)
                ++ (if total sample <=? current sample then String LF "" else "") /\
    lf_free body /\
    (0 <= total sample -> (total sample <=? current sample) = (current sample =? total sample)).
Proof.
  split; [exact Inv_sample |].
  apply (C4_line_break_on_completion sample_world Inv_sample).
Defined.

(** C4 as stated fails for a tracker built with a negative total: each of its
    renders ends in a line feed although the counter is not the total. *)
Lemma C4_counterexample :
  exists c w c' w',
    ProgressBar (-1) (world 0 20) = Ok (c, w) /\
    ShowProgressBar c w = Ok (c', w') /\
    stdout w' = String CR "[>           ]  0/-1" ++ String LF "" /\
    current c <> total c.
Proof.
  destruct (ProgressBar (-1) (world 0 20)) as [[c w] |] eqn:E0;
    [| vm_compute in E0; discriminate].
  destruct (ShowProgressBar c w) as [[c' w'] |] eqn:E1.
  - exists c, w, c', w'. split; [reflexivity |]. split; [exact E1 |].
    vm_compute in E0. inversion E0; subst; clear E0.
    vm_compute in E1. inversion E1; subst; clear E1.
    split; [vm_compute; reflexivity | cbn; lia].
  - exfalso. vm_compute in E0. inversion E0; subst; clear E0.
    vm_compute in E1. discriminate.
Qed.

(** A counter of 0 gives the percentage 0 exactly, whatever the total. *)
Lemma percent_zero tot : (F64.mul (F64.div (F64.of_int 0) (F64.of_int tot)) 100 == 0)%Q.
Proof.
  unfold F64.mul, F64.div. change (F64.of_int 0) with 0%Q.
  assert (E1 : (0 / F64.of_int tot == 0)%Q) by (unfold Qdiv; ring).
  rewrite E1. change (F64.round64 0) with 0%Q.
  assert (E2 : (0 * 100 == 0)%Q) by ring.
  rewrite E2. reflexivity.
Qed.

(** C2, as the code has it.  For a tracker with [0 <= current <= total] the
    percentage lies between 0 and 100 and is 0 when the total is 0, where
    nothing is divided.  For a positive total it is the double
    [float64(current) / float64(total) * 100], each operation rounded: within
    [2^-44] of [100 * current / total], equal to 100 when the counter has
    reached the total and equal to 0 when the counter is 0. *)
Theorem C2_percent_bounds (c : Config) :
  0 <= current c <= total c -> total c <= Int64.max_int ->
  (0 <= percent_of c <= 100)%Q /\
  (total c = 0 -> percent_of c = 0%Q) /\
  (0 < total c ->
   (0 < F64.of_int (total c))%Q /\
   (Qabs (percent_of c - 100 * inject_Z (current c) / inject_Z (total c))
    <= 1 # 17592186044416)%Q /\
   (current c = total c -> (percent_of c == 100)%Q) /\
   (current c = 0 -> (percent_of c == 0)%Q)).
Proof.
  intros Hc Ht. split; [apply percent_bounds; intros _; exact Hc |]. split.
  - intros E. unfold percent_of. rewrite E. reflexivity.
  - intros Hpos.
    pose proof (@of_int_ge_1 (total c) ltac:(lia)) as HB.
    split; [lra |].
    unfold percent_of. replace (0 <? total c) with true by (symmetry; apply Z.ltb_lt; exact Hpos).
    split.
    + destruct (Z.eq_dec (current c) 0) as [E0 | E0].
      * rewrite E0. unfold F64.mul, F64.div.
        change (F64.of_int 0) with 0%Q.
        assert (E1 : (0 / F64.of_int (total c) == 0)%Q) by (field; lra).
        rewrite E1. change (F64.round64 0) with 0%Q.
        assert (E2 : (0 * 100 == 0)%Q) by ring.
        rewrite E2. change (F64.round64 0) with 0%Q.
        assert (E3 : (0 - 100 * inject_Z 0 / inject_Z (total c) == 0)%Q).
        { change (inject_Z 0) with 0%Q. field.
          intros E. assert (H1 : (1 <= inject_Z (total c))%Q)
            by (change 1%Q with (inject_Z 1); rewrite <- Zle_Qle; lia). lra. }
        rewrite E3. discriminate.
      * apply percent_error; [lia |]. unfold Int64.max_int in Ht. lia.
    + split.
      * intros E. rewrite E. unfold F64.mul, F64.div.
        assert (E1 : (F64.of_int (total c) / F64.of_int (total c) == 1)%Q) by (field; lra).
        rewrite E1. vm_compute. reflexivity.
      * intros E. rewrite E. apply percent_zero.
Qed.

Lemma C2_percent_bounds_witness :
  0 <= current sample <= total sample /\ total sample <= Int64.max_int /\
  ((0 <= percent_of sample <= 100)%Q /\
   (total sample = 0 -> percent_of sample = 0%Q) /\
   (0 < total sample ->
    (0 < F64.of_int (total sample))%Q /\
    (Qabs (percent_of sample - 100 * inject_Z (current sample) / inject_Z (total sample))
     <= 1 # 17592186044416)%Q /\
    (current sample = total sample -> (percent_of sample == 100)%Q) /\
    (current sample = 0 -> (percent_of sample == 0)%Q))).
Proof.
  assert (H1 : 0 <= current sample <= total sample) by (vm_compute; split; discriminate).
  assert (H2 : total sample <= Int64.max_int) by (vm_compute; discriminate).
  split; [exact H1 |]. split; [exact H2 |].
  apply (C2_percent_bounds sample H1 H2).
Defined.

(** C2 as stated fails at 7 of 100: the quotient 7/100 is rounded before it
    is multiplied by 100, and the product is the double above 7. *)
Lemma C2_counterexample :
  0 <= current seven_of_100 <= total seven_of_100 /\ 0 < total seven_of_100 /\
  (percent_of seven_of_100 == 7881299347898369 # 1125899906842624)%Q /\
  ~ (percent_of seven_of_100
     == 100 * inject_Z (current seven_of_100) / inject_Z (total seven_of_100))%Q.
Proof.
  split; [vm_compute; split; discriminate |].
  split; [vm_compute; reflexivity |].
  split; [vm_compute; reflexivity |].
  intros H. vm_compute in H. discriminate H.
Qed.

(** C5, as the code has it.  With [0 <= current <= total] and the cached
    total in step with the unit, the current value is shown as wide as the
    total under [UnitRaw]; under [UnitBytes] the two widths agree exactly when
    both values fall in the same bracket of [formatBytes]: both from 1024 up
    (9 bytes), both below 1000 (5 bytes), or both from 1000 to 1023
    (6 bytes). *)
Theorem C5_current_width (c : Config) :
  0 <= current c <= total c -> total c <= Int64.max_int -> totalStr_ok c ->
  exists currentStr,
    currentStr_of c = Ok currentStr /\
    (unit c = UnitRaw -> len currentStr = len (totalStr c)) /\
    (unit c = UnitBytes ->
     (len currentStr = len (totalStr c) <->
      1024 <= current c \/ total c < 1000 \/ (1000 <= current c /\ total c < 1024))).
Proof.
  intros Hc Ht Hok.
  assert (Hrc : Int64.in_range (current c)) by (ranges; lia).
  assert (Hrt : Int64.in_range (total c)) by (ranges; lia).
  destruct (currentStr_of_ok c Hrc) as [cs Hcs]. exists cs.
  split; [exact Hcs |].
  unfold currentStr_of, totalStr_ok in *. destruct (unit c); split; try discriminate.
  - intros _. inversion Hcs; subst cs; clear Hcs.
    unfold len, fmt_wd. rewrite length_pad_left.
    rewrite (@length_fmt_d_nonneg (current c) ltac:(lia)).
    rewrite Hok. rewrite (@length_fmt_d_nonneg (total c) ltac:(lia)).
    pose proof (@length_digits_mono (current c) (total c) ltac:(lia)). lia.
  - intros _.
    destruct (length_formatBytes Hrc Hcs) as (C1 & C2 & C3 & _).
    destruct (length_formatBytes Hrt Hok) as (T1 & T2 & T3 & _).
    unfold len.
    destruct (Z_lt_dec (current c) 1000) as [Hc1 | Hc1];
      [rewrite (C2 ltac:(lia))
      | destruct (Z_lt_dec (current c) 1024) as [Hc2 | Hc2];
        [rewrite (C3 ltac:(lia)) | rewrite (C1 ltac:(lia))]];
    (destruct (Z_lt_dec (total c) 1000) as [Ht1 | Ht1];
      [rewrite (T2 ltac:(lia))
      | destruct (Z_lt_dec (total c) 1024) as [Ht2 | Ht2];
        [rewrite (T3 ltac:(lia)) | rewrite (T1 ltac:(lia))]]);
    split; intros; lia.
Qed.

Lemma C5_current_width_witness :
  0 <= current sample_bytes <= total sample_bytes /\
  total sample_bytes <= Int64.max_int /\ totalStr_ok sample_bytes /\
  exists currentStr,
    currentStr_of sample_bytes = Ok currentStr /\
    (unit sample_bytes = UnitRaw -> len currentStr = len (totalStr sample_bytes)) /\
    (unit sample_bytes = UnitBytes ->
     (len currentStr = len (totalStr sample_bytes) <->
      1024 <= current sample_bytes \/ total sample_bytes < 1000 \/
      (1000 <= current sample_bytes /\ total sample_bytes < 1024))).
Proof.
  assert (H1 : 0 <= current sample_bytes <= total sample_bytes)
    by (vm_compute; split; discriminate).
  assert (H2 : total sample_bytes <= Int64.max_int) by (vm_compute; discriminate).
  assert (H3 : totalStr_ok sample_bytes) by (vm_compute; reflexivity).
  split; [exact H1 |]. split; [exact H2 |]. split; [exact H3 |].
  apply (C5_current_width sample_bytes H1 H2 H3).
Defined.

(** C5 as stated fails in byte units at 512 of 2048: the current value takes
    the 5 byte [%3d B] form, the total the 9 byte K form. *)
Lemma C5_counterexample :
  0 <= current half_k_of_2k <= total half_k_of_2k /\
  SetUnit (set_unit half_k_of_2k UnitRaw "2048") UnitBytes = Ok half_k_of_2k /\
  currentStr_of half_k_of_2k = Ok "512 B" /\
  totalStr half_k_of_2k = "   2.0 KB" /\
  len "512 B" <> len (totalStr half_k_of_2k).
Proof.
  split; [vm_compute; split; discriminate |].
  split; [vm_compute; reflexivity |].
  split; [vm_compute; reflexivity |].
  split; [reflexivity |].
  vm_compute. discriminate.
Qed.






(** C7.  With speed display on, the speed annotation is written exactly when
    an earlier sample exists ([lastTime > 0]) and the [int64] difference
    [now - lastTime] is positive; the rate is then
    [(current - last) / ((now - lastTime) / 1000)] in doubles, shown with
    [%7.2f items/s], and in byte units that rate times 1024, converted to
    [int64] (its truncation whenever that fits) and passed to [formatBytes],
    with [/s] after it. *)
Theorem C7_speed_annotation (c : Config) (w : World) :
  Inv c -> showSpeed c = true ->
  exists c' w' currentStr seg,
    ShowProgressBar c w = Ok (c', w') /\
    currentStr_of c = Ok currentStr /\
    stdout w' = stdout w
                ++ line_of c (suffix_of c currentStr seg (Int64.wrap (now1 w - startTime c)))
                ++ newline_of c /\
    let now := now2 w in
    let duration := Int64.wrap (now - lastTime c) in
    (0 < lastTime c -> 0 <= now -> duration = now - lastTime c) /\
    (~ (0 < lastTime c /\ 0 < duration) -> seg = "") /\
    (0 < lastTime c /\ 0 < duration ->
     let rate := F64.div (F64.of_int (current c - last c))
                         (F64.div (F64.of_int duration) 1000%Q) in
     match unit c with
     | UnitRaw => seg = " (" ++ fmt_f 7 2 rate ++ " items/s)"
     | UnitBytes =>
         exists s, formatBytes (F64.to_int64 (F64.mul rate 1024%Q)) = Ok s /\
                   seg = " (" ++ s ++ "/s)" /\
                   (Int64.in_range (F64.trunc (F64.mul rate 1024%Q)) ->
                    F64.to_int64 (F64.mul rate 1024%Q) = F64.trunc (F64.mul rate 1024%Q))
     end).
Proof.
  intros HI Hs. destruct (render_Inv w HI) as (cs & seg & Hcs & Hseg & E & _ & _).
  cbv zeta in *. rewrite Hs in Hseg.
  exists (fst (after_render c w (line_of c (suffix_of c cs seg
            (Int64.wrap (now1 w - startTime c))) ++ newline_of c))),
         (snd (after_render c w (line_of c (suffix_of c cs seg
            (Int64.wrap (now1 w - startTime c))) ++ newline_of c))),
         cs, seg.
  split; [rewrite E; now destruct (after_render _ _ _) |].
  split; [exact Hcs |].
  split; [rewrite stdout_after_render; reflexivity |].
  assert (Hw : Int64.wrap (current c - last c) = current c - last c).
  { destruct HI as [_ H2 _ _ H5 _ _ _ _]. apply wrap_id. ranges. lia. }
  split.
  - intros Hl Hn. apply wrap_id.
    pose proof (wrap_in_range (clock w (S (ticks w)))) as Hr. fold (now2 w) in Hr.
    destruct HI as [_ _ _ _ _ H6 _ _ _]. ranges. lia.
  - unfold speed_segment in Hseg. rewrite Hw in Hseg. split.
    + intros Hn.
      destruct (Z.ltb_spec 0 (lastTime c)) as [H1 | H1]; [| now inversion Hseg].
      destruct (Z.ltb_spec 0 (Int64.wrap (now2 w - lastTime c))) as [H2 | H2];
        [| now inversion Hseg].
      exfalso. apply Hn. split; assumption.
    + intros [H1 H2].
      apply Z.ltb_lt in H1, H2. rewrite H1, H2 in Hseg.
      destruct (unit c).
      * now inversion Hseg.
      * match type of Hseg with context [formatBytes ?b] =>
          destruct (formatBytes b) as [t |] eqn:Eb end; [| discriminate].
        exists t. split; [reflexivity |]. split; [now inversion Hseg |].
        intros Hr. unfold F64.to_int64.
        apply in_rangeb_spec in Hr. now rewrite Hr.
Qed.

Lemma C7_speed_annotation_witness :
  Inv sample /\ showSpeed sample = true /\
  exists c' w' currentStr seg,
    ShowProgressBar sample sample_world = Ok (c', w') /\
    currentStr_of sample = Ok currentStr /\
    stdout w' = stdout sample_world
                ++ line_of sample (suffix_of sample currentStr seg
                                     (Int64.wrap (now1 sample_world - startTime sample)))
                ++ newline_of sample /\
    let now := now2 sample_world in
    let duration := Int64.wrap (now - lastTime sample) in
    (0 < lastTime sample -> 0 <= now -> duration = now - lastTime sample) /\
    (~ (0 < lastTime sample /\ 0 < duration) -> seg = "") /\
    (0 < lastTime sample /\ 0 < duration ->
     let rate := F64.div (F64.of_int (current sample - last sample))
                         (F64.div (F64.of_int duration) 1000%Q) in
     match unit sample with
     | UnitRaw => seg = " (" ++ fmt_f 7 2 rate ++ " items/s)"
     | UnitBytes =>
         exists s, formatBytes (F64.to_int64 (F64.mul rate 1024%Q)) = Ok s /\
                   seg = " (" ++ s ++ "/s)" /\
                   (Int64.in_range (F64.trunc (F64.mul rate 1024%Q)) ->
                    F64.to_int64 (F64.mul rate 1024%Q) = F64.trunc (F64.mul rate 1024%Q))
     end).
Proof.
  split; [exact Inv_sample |]. split; [reflexivity |].
  apply (C7_speed_annotation sample_world Inv_sample eq_refl).
Defined.

(** ** Further properties of the program *)

Lemma length_fmt_0wd_2 z : 0 <= z < 100 -> String.length (fmt_0wd 2 z) = 2%nat.
Proof.
  intros H. unfold fmt_0wd.
  replace (z <? 0) with false by (symmetry; apply Z.ltb_ge; lia).
  rewrite length_pad_left.
  pose proof (@length_digits_le 2 z ltac:(lia) ltac:(nlia)). lia.
Qed.

(** X1.  [formatTime] drops the milliseconds and splits the whole seconds
    into hours, minutes and seconds: the three numbers printed add up to the
    seconds, minutes and seconds stay below 60 in absolute value, all three
    carry the sign of the input, and below 100 hours the text has 8 bytes. *)
Theorem X1_formatTime_fields (ms : Z) :
  exists h m s,
    formatTime ms = fmt_0wd 2 h ++ ":" ++ fmt_0wd 2 m ++ ":" ++ fmt_0wd 2 s /\
    h * 3600 + m * 60 + s = Z.quot ms 1000 /\
    Z.abs m < 60 /\ Z.abs s < 60 /\
    (0 <= ms -> 0 <= h /\ 0 <= m /\ 0 <= s) /\
    (ms <= 0 -> h <= 0 /\ m <= 0 /\ s <= 0) /\
    (0 <= ms < 360000000 -> len (formatTime ms) = 8).
Proof.
  set (sec := Z.quot ms 1000).
  set (h := Z.quot sec 3600). set (r := Z.rem sec 3600).
  set (m := Z.quot r 60). set (s := Z.rem r 60).
  assert (Hf : formatTime ms = fmt_0wd 2 h ++ ":" ++ fmt_0wd 2 m ++ ":" ++ fmt_0wd 2 s)
    by reflexivity.
  pose proof (Z.quot_rem' sec 3600) as E1. fold h r in E1.
  pose proof (Z.quot_rem' r 60) as E2. fold m s in E2.
  pose proof (@Z.rem_bound_abs sec 3600 ltac:(lia)) as B1. fold r in B1.
  pose proof (@Z.rem_bound_abs r 60 ltac:(lia)) as B2. fold s in B2.
  pose proof (@quot_abs_le r 60 ltac:(lia)) as B3. fold m in B3.
  assert (Bm : Z.abs m < 60).
  { unfold m. rewrite <- (Z.quot_abs r 60) by lia. change (Z.abs 60) with 60.
    apply Z.quot_lt_upper_bound; lia. }
  assert (Pos : 0 <= ms -> 0 <= h /\ 0 <= m /\ 0 <= s).
  { intros H0.
    assert (0 <= sec) by (apply Z.quot_pos; lia).
    assert (0 <= r) by (apply Z.rem_nonneg; lia).
    repeat split; [apply Z.quot_pos | apply Z.quot_pos | apply Z.rem_nonneg]; lia. }
  assert (Neg : ms <= 0 -> h <= 0 /\ m <= 0 /\ s <= 0).
  { intros H0.
    pose proof (@Z.mul_quot_ge ms 1000 H0 ltac:(lia)) as Q1. fold sec in Q1.
    assert (Hsec : sec <= 0) by lia.
    pose proof (@Z.mul_quot_ge sec 3600 Hsec ltac:(lia)) as Q2. fold h in Q2.
    assert (Hr : r <= 0) by (apply Z.rem_nonpos; lia).
    pose proof (@Z.mul_quot_ge r 60 Hr ltac:(lia)) as Q3. fold m in Q3.
    assert (s <= 0) by (apply Z.rem_nonpos; lia).
    lia. }
  exists h, m, s. split; [exact Hf |]. split; [lia |]. split; [exact Bm |].
  split; [exact B2 |]. split; [exact Pos |]. split; [exact Neg |].
  intros Hms. destruct (Pos ltac:(lia)) as (Hh & Hm & Hs).
  assert (Hsec : sec < 360000) by (apply Z.quot_lt_upper_bound; lia).
  assert (Hh' : h < 100).
  { apply Z.quot_lt_upper_bound; [apply Z.quot_pos; lia | lia | lia]. }
  rewrite Hf. unfold len. len_norm.
  rewrite !length_fmt_0wd_2 by lia. reflexivity.
Qed.

(** X2.  [SetUnit] returns for every [int64] total, sets the unit, caches the
    total formatted for that unit and touches nothing else; an earlier
    [SetUnit] leaves no trace, so the last call wins and repeating a call
    changes nothing. *)
Theorem X2_SetUnit_last_wins (c : Config) (u : Unit) :
  Int64.in_range (total c) ->
  exists c',
    SetUnit c u = Ok c' /\
    unit c' = u /\ totalStr_ok c' /\
    (u = UnitRaw -> totalStr c' = fmt_d (total c)) /\
    current c' = current c /\ total c' = total c /\ width c' = width c /\
    startTime c' = startTime c /\ last c' = last c /\ lastTime c' = lastTime c /\
    showProgress c' = showProgress c /\ showPercent c' = showPercent c /\
    showSpeed c' = showSpeed c /\ showUsedTime c' = showUsedTime c /\
    showLastTime c' = showLastTime c /\
    (forall u2, SetUnit c' u2 = SetUnit c u2) /\
    SetUnit c' u = Ok c'.
Proof.
  intros Ht. unfold SetUnit. destruct u.
  - eexists. split; [reflexivity |]. unfold totalStr_ok. fields.
    repeat split; try reflexivity.
  - destruct (formatBytes_ok Ht) as [s Hs]. rewrite Hs.
    eexists. split; [reflexivity |]. unfold totalStr_ok. fields.
    repeat split; try reflexivity; try assumption; try discriminate.
    + intros []; [reflexivity |]. rewrite Hs. reflexivity.
    + rewrite Hs. reflexivity.
Qed.

Lemma X2_SetUnit_last_wins_witness :
  Int64.in_range (total sample) /\
  exists c',
    SetUnit sample UnitBytes = Ok c' /\
    unit c' = UnitBytes /\ totalStr_ok c' /\
    (UnitBytes = UnitRaw -> totalStr c' = fmt_d (total sample)) /\
    current c' = current sample /\ total c' = total sample /\ width c' = width sample /\
    startTime c' = startTime sample /\ last c' = last sample /\
    lastTime c' = lastTime sample /\
    showProgress c' = showProgress sample /\ showPercent c' = showPercent sample /\
    showSpeed c' = showSpeed sample /\ showUsedTime c' = showUsedTime sample /\
    showLastTime c' = showLastTime sample /\
    (forall u2, SetUnit c' u2 = SetUnit sample u2) /\
    SetUnit c' UnitBytes = Ok c'.
Proof.
  assert (H : Int64.in_range (total sample)) by (vm_compute; split; discriminate).
  split; [exact H | apply (X2_SetUnit_last_wins sample UnitBytes H)].
Defined.

Lemma X3_reachable_Inv_witness : reachable fresh /\ Inv fresh.
Proof.
  assert (R : reachable fresh).
  { apply (@reach_ProgressBar 200 sample_world fresh
             (mkWorld (clock sample_world) 1 (termWidth sample_world) "")).
    - vm_compute. split; discriminate.
    - vm_compute. split; [discriminate | reflexivity].
    - unfold ProgressBar, bind, ret, time_Now_ms, getTerminalWidth, sample_world, world.
      cbn [clock ticks termWidth stdout]. unfold fresh.
      do 2 f_equal. }
  split; [exact R | exact (reachable_Inv R)].
Defined.

(** X4.  Once the counter has reached the total (or the total is zero or
    negative) [Update] and [Increment] are renders and nothing more: whatever
    value is passed the counter stays, and the call writes one more line that
    ends in a line feed. *)
Theorem X4_completed_is_absorbing (c : Config) (v : Z) (w : World) :
  Int64.in_range (current c) -> total c <= current c ->
  Update c v w = ShowProgressBar c w /\
  Increment c w = ShowProgressBar c w /\
  exists c' w' rest,
    Update c v w = Ok (c', w') /\
    current c' = current c /\
    stdout w' = stdout w ++ String CR ("[" ++ rest) ++ String LF "".
Proof.
  intros Hr Hc.
  assert (E1 : Update c v w = ShowProgressBar c w).
  { unfold Update.
    replace ((current c <? v) && (v <=? total c)) with false; [reflexivity |].
    symmetry. apply andb_false_iff.
    destruct (Z.ltb_spec (current c) v); [right; apply Z.leb_gt; lia | left; reflexivity]. }
  assert (E2 : Increment c w = ShowProgressBar c w).
  { unfold Increment.
    replace (current c <? total c) with false; [reflexivity |].
    symmetry. apply Z.ltb_ge. exact Hc. }
  split; [exact E1 |]. split; [exact E2 |]. rewrite E1.
  destruct (ShowProgressBar_ok c w Hr) as (cs & seg & _ & _ & E).
  rewrite E.
  set (output := suffix_of c cs seg (Int64.wrap (now1 w - startTime c))).
  exists (fst (after_render c w (line_of c output ++ newline_of c))),
         (snd (after_render c w (line_of c output ++ newline_of c))),
         (bar_of c output ++ "]" ++ output).
  split; [now destruct (after_render _ _ _) |]. split.
  - unfold after_render. destruct (showSpeed c); reflexivity.
  - rewrite stdout_after_render, line_of_eq. unfold newline_of.
    replace (total c <=? current c) with true by (symmetry; apply Z.leb_le; exact Hc).
    reflexivity.
Qed.

Lemma X4_completed_is_absorbing_witness :
  Int64.in_range (current finished) /\ total finished <= current finished /\
  (Update finished 500 sample_world = ShowProgressBar finished sample_world /\
   Increment finished sample_world = ShowProgressBar finished sample_world /\
   exists c' w' rest,
     Update finished 500 sample_world = Ok (c', w') /\
     current c' = current finished /\
     stdout w' = stdout sample_world ++ String CR ("[" ++ rest) ++ String LF "").
Proof.
  assert (H1 : Int64.in_range (current finished)) by (vm_compute; split; discriminate).
  assert (H2 : total finished <= current finished) by (vm_compute; discriminate).
  split; [exact H1 |]. split; [exact H2 |].
  apply (X4_completed_is_absorbing finished 500 sample_world H1 H2).
Defined.

Lemma round64_pos x : (2 ^ (-1022) <= x)%Q -> (0 < F64.round64 x)%Q.
Proof.
  intros H. destruct (round64_rel H) as [H1 _]. unfold F64.eps in H1.
  pose proof (pow2_pos (-1022)). lra.
Qed.

(** X5.  The percentage is positive as soon as the counter is: however large
    the total, one unit of progress does not round down to zero, so the
    remaining-time estimate (guarded by [percent > 0]) is available from the
    first unit on and never before. *)
Theorem X5_percent_positive_iff (c : Config) :
  0 <= current c <= total c -> total c <= Int64.max_int ->
  (fpos (percent_of c) = true <-> 0 < current c).
Proof.
  intros Hc Ht. unfold fpos. rewrite negb_true_iff.
  split.
  - intros Hf. destruct (Z.eq_dec (current c) 0) as [E | E]; [| lia].
    exfalso. assert (Hz : (percent_of c == 0)%Q).
    { unfold percent_of. destruct (0 <? total c); [| reflexivity].
      rewrite E. apply percent_zero. }
    assert (Hb : Qle_bool (percent_of c) 0 = true) by (apply Qle_bool_iff; lra).
    congruence.
  - intros Hpos.
    assert (Hp : (0 < percent_of c)%Q).
    { unfold percent_of.
      replace (0 <? total c) with true by (symmetry; apply Z.ltb_lt; lia).
      assert (HC1 : (1 <= inject_Z (current c))%Q)
        by (change 1%Q with (inject_Z 1); rewrite <- Zle_Qle; lia).
      assert (HT1 : (1 <= inject_Z (total c))%Q)
        by (change 1%Q with (inject_Z 1); rewrite <- Zle_Qle; lia).
      assert (HT : (inject_Z (total c) <= 9223372036854775808)%Q).
      { change 9223372036854775808%Q with (inject_Z (2 ^ 63)). rewrite <- Zle_Qle.
        unfold Int64.max_int in Ht. lia. }
      assert (Hmin : (2 ^ (-1022) <= 1 # 36893488147419103232)%Q).
      { change (1 # 36893488147419103232)%Q with (2 ^ (-65))%Q. apply pow2_le. lia. }
      unfold F64.mul, F64.div, F64.of_int.
      destruct (@round64_rel (inject_Z (current c))) as [A1 _];
        [apply (Qle_trans _ _ _ Hmin); lra |].
      destruct (@round64_rel (inject_Z (total c))) as [_ B2];
        [apply (Qle_trans _ _ _ Hmin); lra |].
      unfold F64.eps in *.
      set (A := F64.round64 (inject_Z (current c))) in *.
      set (B := F64.round64 (inject_Z (total c))) in *.
      assert (HB : (0 < B)%Q).
      { pose proof (@of_int_ge_1 (total c) ltac:(lia)) as H. unfold F64.of_int in H.
        fold B in H. lra. }
      assert (HX : ((1 # 18446744073709551616) <= A / B)%Q)
        by (apply Qle_shift_div_l; lra).
      destruct (@round64_rel (A / B)%Q) as [Q1 _]; [apply (Qle_trans _ _ _ Hmin); lra |].
      unfold F64.eps in *.
      apply round64_pos. apply (Qle_trans _ _ _ Hmin). lra. }
    destruct (Qle_bool (percent_of c) 0) eqn:Hb; [| reflexivity].
    apply Qle_bool_iff in Hb. lra.
Qed.

Lemma X5_percent_positive_iff_witness :
  0 <= current sample <= total sample /\ total sample <= Int64.max_int /\
  (fpos (percent_of sample) = true <-> 0 < current sample).
Proof.
  assert (H1 : 0 <= current sample <= total sample) by (vm_compute; split; discriminate).
  assert (H2 : total sample <= Int64.max_int) by (vm_compute; discriminate).
  split; [exact H1 |]. split; [exact H2 |].
  apply (X5_percent_positive_iff sample H1 H2).
Defined.

Lemma percent_mono cur1 cur2 tot :
  0 <= cur1 <= cur2 -> 0 < tot ->
  (F64.mul (F64.div (F64.of_int cur1) (F64.of_int tot)) 100
   <= F64.mul (F64.div (F64.of_int cur2) (F64.of_int tot)) 100)%Q.
Proof.
  intros Hc Ht.
  pose proof (@of_int_nonneg cur1 ltac:(lia)) as A0.
  pose proof (@of_int_mono cur1 cur2 ltac:(lia) ltac:(lia)) as A1.
  pose proof (@of_int_ge_1 tot ltac:(lia)) as B1.
  unfold F64.mul, F64.div.
  set (A1' := F64.of_int cur1) in *. set (A2' := F64.of_int cur2) in *.
  set (B := F64.of_int tot) in *.
  assert (H0 : (0 <= A1' / B)%Q) by (apply Qle_shift_div_l; lra).
  assert (H1 : (A1' / B <= A2' / B)%Q).
  { apply Qmult_le_compat_r; [exact A1 |]. apply Qlt_le_weak, Qinv_lt_0_compat. lra. }
  pose proof (round64_mono H0 H1) as Hq.
  pose proof (round64_nonneg H0) as Hq0.
  apply round64_mono; lra.
Qed.

Lemma progressLength_mono w p1 p2 :
  0 <= w < 2 ^ 31 -> (0 <= p1)%Q -> (p1 <= p2)%Q -> (p2 <= 100)%Q ->
  progressLength_of w p1 <= progressLength_of w p2.
Proof.
  intros Hw H0 H12 H2.
  destruct (@progressLength_bounds w p1 Hw ltac:(split; lra)) as [E1 _].
  destruct (@progressLength_bounds w p2 Hw ltac:(split; lra)) as [E2 _].
  rewrite E1, E2. apply Qfloor_resp_le.
  pose proof (@of_int_nonneg w ltac:(lia)) as W0.
  unfold F64.div, F64.mul. set (W := F64.of_int w) in *.
  assert (M0 : (0 <= W * p1)%Q) by (apply Qmult_le_0_compat; lra).
  assert (M1 : (W * p1 <= W * p2)%Q) by (apply Qmult_le_compat_nonneg; lra).
  pose proof (round64_mono M0 M1) as Hm. pose proof (round64_nonneg M0) as Hm0.
  apply round64_mono.
  - apply Qle_shift_div_l; lra.
  - apply Qmult_le_compat_r; [exact Hm |]. apply Qlt_le_weak, Qinv_lt_0_compat. lra.
Qed.

(** X6.  Progress never moves the display backwards: between two trackers
    with the same total, the one further along has the larger (or equal)
    percentage, and in a bar of the same width the larger (or equal) filled
    length. *)
Theorem X6_fill_monotone (c1 c2 : Config) (w : Z) :
  total c1 = total c2 -> 0 <= current c1 <= current c2 -> current c2 <= total c2 ->
  0 <= w < 2 ^ 31 ->
  (percent_of c1 <= percent_of c2)%Q /\
  progressLength_of w (percent_of c1) <= progressLength_of w (percent_of c2).
Proof.
  intros Et Hc Hc2 Hw.
  assert (Hp : (percent_of c1 <= percent_of c2)%Q).
  { unfold percent_of. rewrite Et. destruct (Z.ltb_spec 0 (total c2)); [| lra].
    apply percent_mono; lia. }
  split; [exact Hp |].
  destruct (@percent_bounds c1 ltac:(rewrite Et; lia)) as [P0 _].
  destruct (@percent_bounds c2 ltac:(lia)) as [_ P1].
  apply progressLength_mono; assumption.
Qed.

Lemma X6_fill_monotone_witness :
  total sample = total finished /\ 0 <= current sample <= current finished /\
  current finished <= total finished /\ 0 <= 40 < 2 ^ 31 /\
  ((percent_of sample <= percent_of finished)%Q /\
   progressLength_of 40 (percent_of sample) <= progressLength_of 40 (percent_of finished)).
Proof.
  assert (H1 : total sample = total finished) by reflexivity.
  assert (H2 : 0 <= current sample <= current finished) by (vm_compute; split; discriminate).
  assert (H3 : current finished <= total finished) by (vm_compute; discriminate).
  assert (H4 : 0 <= 40 < 2 ^ 31) by (vm_compute; split; [discriminate | reflexivity]).
  split; [exact H1 |]. split; [exact H2 |]. split; [exact H3 |]. split; [exact H4 |].
  apply (X6_fill_monotone sample finished H1 H2 H3 H4).
Defined.





Lemma round64_zero x : (x == 0)%Q -> F64.round64 x = 0%Q.
Proof.
  intros E. unfold F64.round64.
  replace (Qeq_bool x 0) with true by (symmetry; apply Qeq_bool_iff; exact E).
  reflexivity.
Qed.

Lemma percent_full c : 0 < total c -> current c = total c -> (percent_of c == 100)%Q.
Proof.
  intros Hpos E. unfold percent_of.
  replace (0 <? total c) with true by (symmetry; apply Z.ltb_lt; exact Hpos).
  pose proof (@of_int_ge_1 (total c) ltac:(lia)) as HB.
  rewrite E. unfold F64.mul, F64.div.
  assert (E1 : (F64.of_int (total c) / F64.of_int (total c) == 1)%Q) by (field; lra).
  rewrite E1. vm_compute. reflexivity.
Qed.

Lemma percent_none c : current c = 0 -> (percent_of c == 0)%Q.
Proof.
  intros E. unfold percent_of. destruct (0 <? total c); [| reflexivity].
  rewrite E. apply percent_zero.
Qed.

Lemma progressLength_full w p :
  0 <= w < 2 ^ 31 -> (p == 100)%Q -> progressLength_of w p = w.
Proof.
  intros Hw Hp.
  destruct (@progressLength_bounds w p Hw ltac:(rewrite Hp; split; discriminate)) as [E _].
  rewrite E. rewrite <- (Qfloor_Z w) at 2. apply Qfloor_comp.
  unfold F64.div, F64.mul.
  assert (EW : (F64.of_int w == inject_Z w)%Q) by (apply of_int_exact; lia).
  assert (E1 : (F64.of_int w * p == inject_Z (w * 100))%Q).
  { rewrite EW, Hp, inject_Z_mult. reflexivity. }
  rewrite E1. rewrite (@round64_int (w * 100)) by lia.
  assert (E2 : (inject_Z (w * 100) / 100 == inject_Z w)%Q).
  { rewrite inject_Z_mult. change (inject_Z 100) with 100%Q. field. }
  rewrite E2. apply round64_int. lia.
Qed.

Lemma progressLength_none w p :
  0 <= w < 2 ^ 31 -> (p == 0)%Q -> progressLength_of w p = 0.
Proof.
  intros Hw Hp.
  destruct (@progressLength_bounds w p Hw ltac:(rewrite Hp; split; discriminate)) as [E _].
  rewrite E. unfold F64.div, F64.mul.
  assert (E1 : (F64.of_int w * p == 0)%Q) by (rewrite Hp; ring).
  rewrite (round64_zero E1).
  assert (E2 : (0 / 100 == 0)%Q) by reflexivity.
  rewrite (round64_zero E2). reflexivity.
Qed.

Lemma bar_loop_full n : forall i pw bar,
  i + Z.of_nat n = pw -> bar_loop n i pw pw bar = bar ++ replicate n "=".
Proof.
  induction n as [| n IH]; intros i pw bar H.
  - cbn [bar_loop replicate]. now rewrite app_nil_r.
  - cbn [bar_loop replicate].
    replace (i <? pw) with true by (symmetry; apply Z.ltb_lt; lia).
    rewrite IH by lia. rewrite app_assoc. reflexivity.
Qed.

Lemma bar_loop_blank n : forall i pl pw bar,
  pl < i -> i + Z.of_nat n = pw -> bar_loop n i pl pw bar = bar ++ replicate n " ".
Proof.
  induction n as [| n IH]; intros i pl pw bar Hl H.
  - cbn [bar_loop replicate]. now rewrite app_nil_r.
  - cbn [bar_loop replicate].
    replace (i <? pw) with true by (symmetry; apply Z.ltb_lt; lia).
    replace (i <? pl) with false by (symmetry; apply Z.ltb_ge; lia).
    replace (i =? pl) with false by (symmetry; apply Z.eqb_neq; lia).
    cbn [andb]. rewrite IH by lia. rewrite app_assoc. reflexivity.
Qed.

(** X8.  The two ends of the bar.  With a positive total and a bar of
    [progressWidth] cells, [0 <= progressWidth < 2^31]: when the counter has
    reached the total every cell is [=] and there is no head; when the counter
    is 0 the bar is the head [>] followed by blanks. *)
Theorem X8_bar_at_ends (c : Config) (output : string) :
  0 < total c -> 0 <= progressWidth_of c output < 2 ^ 31 ->
  (current c = total c ->
   bar_of c output = replicate (Z.to_nat (progressWidth_of c output)) "=") /\
  (current c = 0 -> 0 < progressWidth_of c output ->
   bar_of c output
   = String ">" (replicate (Z.to_nat (progressWidth_of c output) - 1) " ")).
Proof.
  intros Hpos Hw. unfold bar_of. set (pw := progressWidth_of c output) in *. split.
  - intros E. rewrite (progressLength_full Hw (percent_full c Hpos E)).
    rewrite bar_loop_full by lia. reflexivity.
  - intros E Hp. rewrite (progressLength_none Hw (percent_none c E)).
    destruct (Z.to_nat pw) as [| n] eqn:En; [lia |].
    cbn [bar_loop].
    replace (0 <? pw) with true by (symmetry; apply Z.ltb_lt; lia).
    cbn [Z.ltb Z.compare Z.eqb andb].
    rewrite bar_loop_blank by lia.
    replace (S n - 1)%nat with n by lia. reflexivity.
Qed.

Lemma X8_bar_at_ends_witness :
  0 < total finished /\ 0 <= progressWidth_of finished " 200/200" < 2 ^ 31 /\
  ((current finished = total finished ->
    bar_of finished " 200/200"
    = replicate (Z.to_nat (progressWidth_of finished " 200/200")) "=") /\
   (current finished = 0 -> 0 < progressWidth_of finished " 200/200" ->
    bar_of finished " 200/200"
    = String ">" (replicate (Z.to_nat (progressWidth_of finished " 200/200") - 1) " "))).
Proof.
  assert (H1 : 0 < total finished) by reflexivity.
  assert (H2 : 0 <= progressWidth_of finished " 200/200" < 2 ^ 31)
    by (vm_compute; split; [discriminate | reflexivity]).
  split; [exact H1 |]. split; [exact H2 |].
  apply (X8_bar_at_ends finished " 200/200" H1 H2).
Defined.

(** X9.  At completion nothing is left to wait for: with a positive total,
    the counter at the total and a used time between 0 and [2^53]
    milliseconds, the estimate of the remaining time is 0, and the time
    annotation, when the remaining time is shown, ends in [00:00:00]. *)
Theorem X9_no_time_left (c : Config) (usedTime : Z) :
  0 < total c -> current c = total c -> 0 <= usedTime <= 2 ^ 53 ->
  remaining_of (percent_of c) usedTime = 0 /\
  (showLastTime c = true ->
   time_segment c (percent_of c) usedTime (remaining_of (percent_of c) usedTime)
   = if showUsedTime c then " [" ++ formatTime usedTime ++ "/00:00:00]"
     else " [剩余:00:00:00]").
Proof.
  intros Hpos E Hu.
  pose proof (percent_full c Hpos E) as Hp.
  assert (Hf : fpos (percent_of c) = true).
  { unfold fpos. destruct (Qle_bool (percent_of c) 0) eqn:Hb; [| reflexivity].
    apply Qle_bool_iff in Hb. rewrite Hp in Hb. exfalso. lra. }
  assert (Hr : remaining_of (percent_of c) usedTime = 0).
  { unfold remaining_of. rewrite Hf. unfold F64.sub, F64.mul, F64.div.
    assert (EU : (F64.of_int usedTime == inject_Z usedTime)%Q) by (apply of_int_exact; lia).
    assert (E1 : (100 / percent_of c == 1)%Q) by (rewrite Hp; reflexivity).
    assert (E2 : (F64.round64 (100 / percent_of c) == 1)%Q).
    { rewrite (round64_comp E1). vm_compute. reflexivity. }
    assert (E3 : (F64.of_int usedTime * F64.round64 (100 / percent_of c)
                  == inject_Z usedTime)%Q) by (rewrite E2, EU; ring).
    assert (E4 : (F64.round64 (F64.of_int usedTime * F64.round64 (100 / percent_of c))
                  - F64.of_int usedTime == 0)%Q).
    { rewrite (round64_comp E3), (@round64_int usedTime) by lia. rewrite EU. ring. }
    rewrite (round64_zero E4). reflexivity. }
  split; [exact Hr |].
  intros Hs. rewrite Hr. unfold time_segment. rewrite Hs, Hf.
  destruct (showUsedTime c); reflexivity.
Qed.

Lemma X9_no_time_left_witness :
  0 < total finished /\ current finished = total finished /\ 0 <= 200 <= 2 ^ 53 /\
  (remaining_of (percent_of finished) 200 = 0 /\
   (showLastTime finished = true ->
    time_segment finished (percent_of finished) 200
      (remaining_of (percent_of finished) 200)
    = if showUsedTime finished then " [" ++ formatTime 200 ++ "/00:00:00]"
      else " [剩余:00:00:00]")).
Proof.
  assert (H1 : 0 < total finished) by reflexivity.
  assert (H2 : current finished = total finished) by reflexivity.
  assert (H3 : 0 <= 200 <= 2 ^ 53) by (vm_compute; split; discriminate).
  split; [exact H1 |]. split; [exact H2 |]. split; [exact H3 |].
  apply (X9_no_time_left finished H1 H2 H3).
Defined.

(** X10.  A render that follows a sample with no progress in between reports
    a rate of zero: when the counter equals the sampled value and time has
    passed since the sample, the speed annotation is [ (   0.00 items/s)], or
    [ (  0 B/s)] in byte units. *)
Theorem X10_idle_rate (c : Config) (now : Z) :
  last c = current c -> 0 < lastTime c -> 0 < Int64.wrap (now - lastTime c) ->
  speed_segment c now
  = Ok (match unit c with
        | UnitRaw => " (   0.00 items/s)"
        | UnitBytes => " (  0 B/s)"
        end).
Proof.
  intros El Ht Hd. unfold speed_segment.
  replace (0 <? lastTime c) with true by (symmetry; apply Z.ltb_lt; exact Ht).
  replace (0 <? Int64.wrap (now - lastTime c)) with true
    by (symmetry; apply Z.ltb_lt; exact Hd).
  rewrite El, Z.sub_diag.
  change (F64.of_int (Int64.wrap 0)) with 0%Q.
  set (d := F64.div (F64.of_int (Int64.wrap (now - lastTime c))) 1000%Q).
  assert (E0 : F64.div 0%Q d = 0%Q).
  { unfold F64.div. apply round64_zero. unfold Qdiv. ring. }
  rewrite E0. destruct (unit c); vm_compute; reflexivity.
Qed.

Lemma X10_idle_rate_witness :
  last (set_sample finished 200 1700000000100)
  = current (set_sample finished 200 1700000000100) /\
  0 < lastTime (set_sample finished 200 1700000000100) /\
  0 < Int64.wrap (1700000000200 - lastTime (set_sample finished 200 1700000000100)) /\
  speed_segment (set_sample finished 200 1700000000100) 1700000000200
  = Ok (match unit (set_sample finished 200 1700000000100) with
        | UnitRaw => " (   0.00 items/s)"
        | UnitBytes => " (  0 B/s)"
        end).
Proof.
  assert (H1 : last (set_sample finished 200 1700000000100)
               = current (set_sample finished 200 1700000000100)) by reflexivity.
  assert (H2 : 0 < lastTime (set_sample finished 200 1700000000100)) by reflexivity.
  assert (H3 : 0 < Int64.wrap (1700000000200
                               - lastTime (set_sample finished 200 1700000000100)))
    by (vm_compute; reflexivity).
  split; [exact H1 |]. split; [exact H2 |]. split; [exact H3 |].
  apply (X10_idle_rate (set_sample finished 200 1700000000100) 1700000000200 H1 H2 H3).
Defined.

(** X11.  From 1024 up [formatBytes] picks the largest unit that does not
    exceed the value: the letter at index [exp] of [KMGTPE] with
    [1024^(exp+1) <= bytes < 1024^(exp+2)].  The number in front is the
    double [float64(bytes) / float64(1024^(exp+1))], between 1 and 1024, and
    the text has exactly 9 bytes. *)
Theorem X11_formatBytes_magnitude (bytes : Z) :
  1024 <= bytes <= Int64.max_int ->
  exists exp ch s,
    0 <= exp <= 5 /\
    String.get (Z.to_nat exp) "KMGTPE" = Some ch /\
    1024 ^ (exp + 1) <= bytes < 1024 ^ (exp + 2) /\
    (1 <= F64.div (F64.of_int bytes) (F64.of_int (1024 ^ (exp + 1))) <= 1024)%Q /\
    formatBytes bytes = Ok s /\
    s = fmt_f 6 1 (F64.div (F64.of_int bytes) (F64.of_int (1024 ^ (exp + 1))))
        ++ " " ++ String ch "B" /\
    String.length s = 9%nat.
Proof.
  intros Hb.
  destruct (formatBytes_large Hb) as (d & e & ch & _ & He & Hd & Hbr & Hi & E).
  exists e, ch, (fmt_f 6 1 (F64.div (F64.of_int bytes) (F64.of_int d)) ++ " " ++ String ch "B").
  split; [exact He |]. split.
  { unfold index in Hi.
    destruct ((0 <=? e) && (e <? len "KMGTPE")); [exact Hi | discriminate Hi]. }
  split.
  { rewrite <- Hd. replace (e + 2) with (Z.succ (e + 1)) by lia.
    rewrite Z.pow_succ_r by lia. rewrite <- Hd. exact Hbr. }
  destruct (@formatBytes_value_bounds bytes d e ltac:(lia) Hd Hbr) as [V0 V1].
  assert (Hdpos : 0 < d) by (rewrite Hd; apply Z.pow_pos_nonneg; lia).
  rewrite <- Hd. split.
  { split; [| exact V1].
    pose proof (@of_int_ge_1 d ltac:(lia)) as HD.
    pose proof (@of_int_mono d bytes ltac:(lia) ltac:(lia)) as HM.
    unfold F64.div.
    assert (E1 : (1 == F64.round64 1)%Q) by (vm_compute; reflexivity).
    rewrite E1 at 1. apply round64_mono; [lra |].
    apply Qle_shift_div_l; lra. }
  split; [exact E |]. split; [reflexivity |].
  assert (Hr : Int64.in_range bytes) by (ranges; lia).
  destruct (length_formatBytes Hr E) as [H9 _]. apply H9. lia.
Qed.

Lemma X11_formatBytes_magnitude_witness :
  1024 <= 1048575 <= Int64.max_int /\
  exists exp ch s,
    0 <= exp <= 5 /\
    String.get (Z.to_nat exp) "KMGTPE" = Some ch /\
    1024 ^ (exp + 1) <= 1048575 < 1024 ^ (exp + 2) /\
    (1 <= F64.div (F64.of_int 1048575) (F64.of_int (1024 ^ (exp + 1))) <= 1024)%Q /\
    formatBytes 1048575 = Ok s /\
    s = fmt_f 6 1 (F64.div (F64.of_int 1048575) (F64.of_int (1024 ^ (exp + 1))))
        ++ " " ++ String ch "B" /\
    String.length s = 9%nat.
Proof.
  assert (H : 1024 <= 1048575 <= Int64.max_int) by (vm_compute; split; discriminate).
  split; [exact H |]. apply (@X11_formatBytes_magnitude 1048575 H).
Defined.

Lemma Increment_spec c w :
  Int64.in_range (current c) -> Int64.in_range (total c) ->
  exists c' w',
    Increment c w = Ok (c', w') /\
    current c' = (if current c <? total c then current c + 1 else current c) /\
    total c' = total c.
Proof.
  intros Hc Ht. unfold Increment.
  set (c1 := if current c <? total c then set_current c (Int64.wrap (current c + 1)) else c).
  assert (H1 : current c1 = (if current c <? total c then current c + 1 else current c)
               /\ total c1 = total c).
  { unfold c1. destruct (Z.ltb_spec (current c) (total c)); fields; [| split; reflexivity].
    split; [| reflexivity]. apply wrap_id. ranges. lia. }
  destruct H1 as [C1 T1].
  destruct (@ShowProgressBar_line c1 w) as (c' & w' & rest & E & _ & C2 & T2).
  { rewrite C1. destruct (Z.ltb_spec (current c) (total c)); ranges; lia. }
  exists c', w'. split; [exact E |]. split; congruence.
Qed.

(** X12.  [n] calls of [Increment] all return and advance the counter by
    [n], stopping at the total: the counter ends at
    [min (current + n) total], and is left as it was when it was already past
    the total. *)
Theorem X12_Increments_saturate (n : nat) (c : Config) (w : World) :
  Int64.in_range (current c) -> Int64.in_range (total c) ->
  exists c' w',
    Increments c n w = Ok (c', w') /\
    current c' = Z.max (current c) (Z.min (current c + Z.of_nat n) (total c)) /\
    total c' = total c.
Proof.
  revert c w. induction n as [| n IH]; intros c w Hc Ht.
  - exists c, w. cbn [Increments]. unfold ret. repeat split. lia.
  - cbn [Increments]. unfold bind.
    destruct (@Increment_spec c w Hc Ht) as (c1 & w1 & E & C1 & T1). rewrite E.
    assert (Hc1 : Int64.in_range (current c1)).
    { rewrite C1. destruct (Z.ltb_spec (current c) (total c)); ranges; lia. }
    destruct (IH c1 w1 Hc1 ltac:(rewrite T1; exact Ht)) as (c' & w' & E' & C' & T').
    exists c', w'. split; [exact E' |]. split; [| congruence].
    rewrite C', C1, T1. destruct (Z.ltb_spec (current c) (total c)); lia.
Qed.

Lemma X12_Increments_saturate_witness :
  Int64.in_range (current fresh) /\ Int64.in_range (total fresh) /\
  exists c' w',
    Increments fresh 3 sample_world = Ok (c', w') /\
    current c' = Z.max (current fresh) (Z.min (current fresh + Z.of_nat 3) (total fresh)) /\
    total c' = total fresh.
Proof.
  assert (H1 : Int64.in_range (current fresh)) by (vm_compute; split; discriminate).
  assert (H2 : Int64.in_range (total fresh)) by (vm_compute; split; discriminate).
  split; [exact H1 |]. split; [exact H2 |].
  apply (@X12_Increments_saturate 3 fresh sample_world H1 H2).
Defined.
